(** * Basic calculator (LeetCode 224, extended): tokenizer and operator-precedence evaluator

    A shallow embedding of [top150_224_basic_calculator/main.py].

    Conventions of the embedding.
    - A Python [str] is a Rocq [string]; a character is a code point in
      U+0000..U+00FF.
    - A Python [int] is a [Z].  A Python [float] is an IEEE-754 binary64 value,
      a [spec_float] at precision 53 and maximal exponent 1024.
    - A Python list used as a stack ([append] / [pop] / [[-1]]) is a Rocq list
      whose head is the LAST element of the Python list (the top of the stack).
    - A computation that may raise is an [outcome].  [Unmodelled] marks the one
      arithmetic operation the embedding does not determine: a power with a
      float operand or a negative exponent, which the interpreter delegates to
      the C library.
    - Limits of the interpreter on memory, on time and on the number of
      digits [int] converts are not part of the embedding. *)

From Stdlib Require Import String Ascii List ZArith Lia Bool Arith SpecFloat.
From Equations Require Import Equations.
Import ListNotations.

Local Open Scope string_scope.
Local Open Scope Z_scope.

(** ** Exceptions and outcomes *)

Inductive exn : Type :=
| ValueError (arg : string)
| IndexError
| ZeroDivisionError
| OverflowError
| TypeError
| AttributeError
| StopIteration.

Inductive outcome (A : Type) : Type :=
| Return (a : A)
| Raise (e : exn)
| Unmodelled.

Arguments Return {A} a.
Arguments Raise {A} e.
Arguments Unmodelled {A}.

Definition bind {A B : Type} (m : outcome A) (f : A -> outcome B) : outcome B :=
  match m with
  | Return a => f a
  | Raise e => Raise e
  | Unmodelled => Unmodelled
  end.

Notation "x <- m ;; k" := (bind m (fun x => k))
  (at level 61, m at next level, right associativity).

(** ** Numbers: Python's [int] and [float] *)

Definition float : Type := spec_float.

Inductive number : Type :=
| VInt (n : Z)
| VFloat (x : float).

Definition prec64 : Z := 53.
Definition emax64 : Z := 1024.

(** [float(n)]: the nearest double, ties to even; [OverflowError] when it
    would not be finite. *)
Definition float_of_int (n : Z) : outcome float :=
  match binary_normalize prec64 emax64 n 0 false with
  | S754_infinity _ => Raise OverflowError
  | x => Return x
  end.

Definition to_float (v : number) : outcome float :=
  match v with
  | VInt n => float_of_int n
  | VFloat x => Return x
  end.

Definition float_is_zero (x : float) : bool :=
  match x with
  | S754_zero _ => true
  | _ => false
  end.

(** [a / b] on two ints: the runtime rounds the exact quotient once. *)
Definition int_true_divide (a b : Z) : outcome number :=
  match a, b with
  | _, Z0 => Raise ZeroDivisionError
  | Z0, _ => Return (VFloat (S754_zero (b <? 0)))
  | _, _ =>
      match SFdiv prec64 emax64
              (S754_finite (a <? 0) (Z.to_pos (Z.abs a)) 0)
              (S754_finite (b <? 0) (Z.to_pos (Z.abs b)) 0) with
      | S754_infinity _ => Raise OverflowError
      | q => Return (VFloat q)
      end
  end.

Definition float_binop (f : float -> float -> float) (a b : number) : outcome number :=
  x <- to_float a ;; y <- to_float b ;; Return (VFloat (f x y)).

Definition py_add (a b : number) : outcome number :=
  match a, b with
  | VInt x, VInt y => Return (VInt (x + y))
  | _, _ => float_binop (SFadd prec64 emax64) a b
  end.

Definition py_sub (a b : number) : outcome number :=
  match a, b with
  | VInt x, VInt y => Return (VInt (x - y))
  | _, _ => float_binop (SFsub prec64 emax64) a b
  end.

Definition py_mul (a b : number) : outcome number :=
  match a, b with
  | VInt x, VInt y => Return (VInt (x * y))
  | _, _ => float_binop (SFmul prec64 emax64) a b
  end.

Definition py_truediv (a b : number) : outcome number :=
  match a, b with
  | VInt x, VInt y => int_true_divide x y
  | _, _ =>
      x <- to_float a ;; y <- to_float b ;;
      if float_is_zero y then Raise ZeroDivisionError
      else Return (VFloat (SFdiv prec64 emax64 x y))
  end.

Definition py_pow (a b : number) : outcome number :=
  match a, b with
  | VInt x, VInt y => if 0 <=? y then Return (VInt (x ^ y)) else Unmodelled
  | _, _ => Unmodelled
  end.

(** ** Characters *)

Definition code (c : ascii) : nat := nat_of_ascii c.

(** [str.isnumeric] on U+0000..U+00FF: the decimal digits, the superscripts
    two, three and one, and the vulgar fractions. *)
Definition isnumeric (c : ascii) : bool :=
  let n := code c in
  ((48 <=? n) && (n <=? 57))%nat
  || existsb (Nat.eqb n) [178; 179; 185; 188; 189; 190]%nat.

(** The characters [int(_, 10)] accepts as digits. *)
Definition isdecimal (c : ascii) : bool :=
  let n := code c in ((48 <=? n) && (n <=? 57))%nat.

Definition digit_value (c : ascii) : Z := Z.of_nat (code c - 48).

Fixpoint string_forallb (p : ascii -> bool) (s : string) : bool :=
  match s with
  | EmptyString => true
  | String c s' => p c && string_forallb p s'
  end.

Fixpoint digits_value (acc : Z) (s : string) : Z :=
  match s with
  | EmptyString => acc
  | String c s' => digits_value (10 * acc + digit_value c) s'
  end.

(** [int(s, 10)] for a string of numeric characters. *)
Definition int (s : string) : outcome Z :=
  match s with
  | EmptyString => Raise (ValueError "invalid literal for int() with base 10: ''")
  | _ =>
      if string_forallb isdecimal s then Return (digits_value 0 s)
      else Raise (ValueError ("invalid literal for int() with base 10: '" ++ s ++ "'"))
  end.

(** ** The operator table *)

(** The six lambdas of the table; Python compares functions by identity. *)
Inductive Lambda : Type :=
| lambda_plus | lambda_minus | lambda_times | lambda_divide
| lambda_exponentiation | lambda_unary_minus.

Definition call (f : Lambda) (a b : number) : outcome number :=
  match f with
  | lambda_plus => py_add a b
  | lambda_minus => py_sub a b
  | lambda_times => py_mul a b
  | lambda_divide => py_truediv a b
  | lambda_exponentiation => py_pow a b
  | lambda_unary_minus => py_sub (VInt 0) b
  end.

Record Operator : Type := mkOperator {
  symbol : ascii;
  left_assoc : bool;
  precedence : nat;
  calc : option Lambda
}.

Record Token : Type := mkToken {
  token_type : Operator;
  value : string
}.

Definition OP_PLUS := mkOperator "+" true 1 (Some lambda_plus).
Definition OP_MINUS := mkOperator "-" true 1 (Some lambda_minus).
Definition OP_TIMES := mkOperator "*" true 2 (Some lambda_times).
Definition OP_DIVIDE := mkOperator "/" true 2 (Some lambda_divide).
Definition OP_EXPONENTIATION := mkOperator "^" false 3 (Some lambda_exponentiation).
Definition OP_UNARY_MINUS := mkOperator "-" true 4 (Some lambda_unary_minus).
Definition OP_LPAREN := mkOperator "(" false 0 None.
Definition OP_RPAREN := mkOperator ")" false 0 None.
Definition NUMBER := mkOperator "1" false 0 None.

Definition ARITHMETIC_OPERATORS : list Operator :=
  [OP_PLUS; OP_MINUS; OP_TIMES; OP_DIVIDE; OP_EXPONENTIATION].

(** [==] on the named tuples: field by field. *)
Definition Lambda_eqb (f g : Lambda) : bool :=
  match f, g with
  | lambda_plus, lambda_plus | lambda_minus, lambda_minus
  | lambda_times, lambda_times | lambda_divide, lambda_divide
  | lambda_exponentiation, lambda_exponentiation
  | lambda_unary_minus, lambda_unary_minus => true
  | _, _ => false
  end.

Definition calc_eqb (f g : option Lambda) : bool :=
  match f, g with
  | Some a, Some b => Lambda_eqb a b
  | None, None => true
  | _, _ => false
  end.

Definition Operator_eqb (a b : Operator) : bool :=
  Ascii.eqb (symbol a) (symbol b)
  && Bool.eqb (left_assoc a) (left_assoc b)
  && Nat.eqb (precedence a) (precedence b)
  && calc_eqb (calc a) (calc b).

(** [x in l] *)
Definition Operator_in (x : Operator) (l : list Operator) : bool :=
  existsb (Operator_eqb x) l.

(** ** Tokenizer *)

(** The attributes [__iter__] creates. *)
Record Cursor : Type := mkCursor {
  iter_index : nat;
  number_str : string;
  prev_token : option Token
}.

(** A [Tokenizer] object: [__init__] sets only the text, so [cursor] is
    [None] until [__iter__] has run. *)
Record Tokenizer : Type := mkTokenizer {
  expr : string;
  cursor : option Cursor
}.

Definition Tokenizer_init (expr : string) : Tokenizer := mkTokenizer expr None.

Definition expr_len (t : Tokenizer) : nat := String.length (expr t).

Fixpoint string_drop (n : nat) (s : string) : string :=
  match n, s with
  | O, _ => s
  | S n', String _ s' => string_drop n' s'
  | S _, EmptyString => EmptyString
  end.

Definition char_at (t : Tokenizer) (i : nat) : outcome ascii :=
  match String.get i (expr t) with
  | Some c => Return c
  | None => Raise IndexError
  end.

Definition __iter__ (t : Tokenizer) : Tokenizer :=
  mkTokenizer (expr t) (Some (mkCursor 0 "" None)).

Definition nonempty (s : string) : bool :=
  match s with
  | EmptyString => false
  | String _ _ => true
  end.

(** The test of line 76 on the previous token. *)
Definition unary_position (prev : option Token) : bool :=
  match prev with
  | None => true
  | Some p => negb (Operator_in (token_type p) [NUMBER; OP_RPAREN])
  end.

Definition string_of_char (c : ascii) : string := String c EmptyString.

(** The [while] loop of [__next__].  [unread] is the text from [iter_index]
    on: it is empty exactly when [iter_index < expr_len] fails, and its first
    character is [char_at iter_index].  The result is what the call returns
    or raises, with the attributes as the call leaves them. *)
Fixpoint scan (unread : string) (cur : Cursor) : outcome Token * Cursor :=
  match unread with
  | String c rest =>
      if negb (isnumeric c) && nonempty (number_str cur) then
        let tok := mkToken NUMBER (number_str cur) in
        (Return tok, mkCursor (iter_index cur) "" (Some tok))
      else if isnumeric c then
        scan rest (mkCursor (S (iter_index cur))
                            (number_str cur ++ string_of_char c)
                            (prev_token cur))
      else if Ascii.eqb c " " then
        scan rest (mkCursor (S (iter_index cur)) (number_str cur) (prev_token cur))
      else if Ascii.eqb c (symbol OP_UNARY_MINUS) && unary_position (prev_token cur) then
        let tok := mkToken OP_UNARY_MINUS (string_of_char c) in
        (Return tok, mkCursor (S (iter_index cur)) (number_str cur) (Some tok))
      else
        match find (fun op => Ascii.eqb c (symbol op)) ARITHMETIC_OPERATORS with
        | Some op =>
            let tok := mkToken op (string_of_char c) in
            (Return tok, mkCursor (S (iter_index cur)) (number_str cur) (Some tok))
        | None =>
            if Ascii.eqb c (symbol OP_LPAREN) then
              let tok := mkToken OP_LPAREN (string_of_char c) in
              (Return tok, mkCursor (S (iter_index cur)) (number_str cur) (Some tok))
            else if Ascii.eqb c (symbol OP_RPAREN) then
              let tok := mkToken OP_RPAREN (string_of_char c) in
              (Return tok, mkCursor (S (iter_index cur)) (number_str cur) (Some tok))
            else
              (Raise (ValueError (string_of_char c)), cur)
        end
  | EmptyString =>
      if nonempty (number_str cur) then
        let tok := mkToken NUMBER (number_str cur) in
        (Return tok, mkCursor (iter_index cur) "" (Some tok))
      else
        (Raise StopIteration, cur)
  end.

Definition __next__ (t : Tokenizer) : outcome Token * Tokenizer :=
  match cursor t with
  | None => (Raise AttributeError, t)
  | Some cur =>
      let (r, cur') := scan (string_drop (iter_index cur) (expr t)) cur in
      (r, mkTokenizer (expr t) (Some cur'))
  end.

(** ** OutputStack *)

Definition OutputStack : Type := list number.

Definition OutputStack_init : OutputStack := [].

(** What [calculate] passes to [append]: an [int] or an [Operator]; the
    [ValueError] of line 128 needs an argument of another type. *)
Inductive pushed : Type :=
| PInt (n : Z)
| POp (v : Operator).

Definition OutputStack_append (stack : OutputStack) (v : pushed) : outcome OutputStack :=
  match v with
  | PInt n => Return (VInt n :: stack)
  | POp v =>
      if Operator_eqb v OP_UNARY_MINUS then
        match stack with
        | right_ :: rest =>
            match calc v with
            | Some f => result_ <- call f (VInt 0) right_ ;; Return (result_ :: rest)
            | None => Raise TypeError
            end
        | [] => Raise IndexError
        end
      else
        match stack with
        | right_ :: left_ :: rest =>
            match calc v with
            | Some f => result_ <- call f left_ right_ ;; Return (result_ :: rest)
            | None => Raise TypeError
            end
        | _ => Raise IndexError
        end
  end.

Definition result (stack : OutputStack) : outcome number :=
  match stack with
  | top :: _ => Return top
  | [] => Raise IndexError
  end.

(** ** Solution.calculate *)

Definition Stacks : Type := (OutputStack * list Operator)%type.

(** The condition of the [while] of line 169, given the top of a non-empty
    operator stack. *)
Definition yields_to (top current : Operator) : bool :=
  negb (Operator_eqb top OP_LPAREN)
  && ((precedence current <? precedence top)%nat
      || ((precedence top =? precedence current)%nat
          && left_assoc top && left_assoc current)).

(** Lines 169-176. *)
Fixpoint pop_preceding (current : Operator) (operator_stack : list Operator)
    (output_stack : OutputStack) : outcome Stacks :=
  match operator_stack with
  | top :: rest =>
      if yields_to top current then
        output_stack' <- OutputStack_append output_stack (POp top) ;;
        pop_preceding current rest output_stack'
      else Return (output_stack, operator_stack)
  | [] => Return (output_stack, [])
  end.

(** Lines 192-193; [operator_stack[-1]] on the empty list raises. *)
Fixpoint pop_to_lparen (operator_stack : list Operator)
    (output_stack : OutputStack) : outcome Stacks :=
  match operator_stack with
  | top :: rest =>
      if negb (Operator_eqb top OP_LPAREN) then
        output_stack' <- OutputStack_append output_stack (POp top) ;;
        pop_to_lparen rest output_stack'
      else Return (output_stack, operator_stack)
  | [] => Raise IndexError
  end.

Definition mismatched : exn := ValueError "mismatched parentheses".

(** The body of the [for] loop, lines 160-199. *)
Definition handle (token : Token) (stacks : Stacks) : outcome Stacks :=
  let (output_stack, operator_stack) := stacks in
  if Operator_eqb (token_type token) NUMBER then
    n <- int (value token) ;;
    output_stack' <- OutputStack_append output_stack (PInt n) ;;
    Return (output_stack', operator_stack)
  else if Operator_in (token_type token) (ARITHMETIC_OPERATORS ++ [OP_UNARY_MINUS]) then
    s <- pop_preceding (token_type token) operator_stack output_stack ;;
    Return (fst s, token_type token :: snd s)
  else if Operator_eqb (token_type token) OP_LPAREN then
    Return (output_stack, OP_LPAREN :: operator_stack)
  else if Operator_eqb (token_type token) OP_RPAREN then
    match operator_stack with
    | [] => Raise mismatched
    | _ :: _ =>
        s <- pop_to_lparen operator_stack output_stack ;;
        match snd s with
        | top :: rest =>
            if negb (Operator_eqb top OP_LPAREN) then Raise mismatched
            else Return (fst s, rest)
        | [] => Raise IndexError
        end
    end
  else Return stacks.

(** Lines 203-207. *)
Fixpoint drain (operator_stack : list Operator) (output_stack : OutputStack)
    : outcome OutputStack :=
  match operator_stack with
  | op :: rest =>
      if Operator_eqb op OP_LPAREN then Raise mismatched
      else
        output_stack' <- OutputStack_append output_stack (POp op) ;;
        drain rest output_stack'
  | [] => Return output_stack
  end.

(** *** The [for] loop over the tokenizer *)

Definition b2n (b : bool) : nat := if b then 1%nat else 0%nat.

(** What is left to do for a tokenizer: two units per unread character, one
    for a pending digit run. *)
Definition remaining (t : Tokenizer) : nat :=
  match cursor t with
  | None => 0%nat
  | Some cur =>
      (2 * (expr_len t - iter_index cur) + b2n (nonempty (number_str cur)))%nat
  end.

(** Termination of the loop over the iterator: every token that
    [__next__] returns uses up some of what remains. *)

Lemma string_drop_length (n : nat) (s : string) :
  String.length (string_drop n s) = (String.length s - n)%nat.
Proof.
  revert s; induction n as [|n IH]; intros [|c s]; simpl; auto.
Qed.

Lemma scan_progress (unread : string) :
  forall cur tok cur',
    scan unread cur = (Return tok, cur') ->
    (iter_index cur <= iter_index cur' /\
     iter_index cur' <= iter_index cur + String.length unread /\
     2 * (iter_index cur + String.length unread - iter_index cur')
       + b2n (nonempty (number_str cur'))
     < 2 * String.length unread + b2n (nonempty (number_str cur)))%nat.
Proof.
  assert (Hb : forall b, (b2n b <= 1)%nat) by (intros []; simpl; lia).
  induction unread as [|c rest IH]; intros cur tok cur' H; cbn [scan] in H.
  - destruct (nonempty (number_str cur)) eqn:E; inversion H; subst.
    cbn [iter_index number_str String.length nonempty b2n]. lia.
  - destruct (negb (isnumeric c) && nonempty (number_str cur)) eqn:E1.
    { inversion H; subst.
      apply andb_true_iff in E1 as [_ ->].
      cbn [iter_index number_str String.length nonempty b2n]. lia. }
    destruct (isnumeric c) eqn:E2.
    { apply IH in H.
      cbn [iter_index number_str String.length] in *.
      pose proof (Hb (nonempty (number_str cur'))).
      pose proof (Hb (nonempty (number_str cur ++ string_of_char c))). lia. }
    simpl in E1. rewrite E1 in *.
    destruct (Ascii.eqb c " ").
    { apply IH in H.
      cbn [iter_index number_str String.length] in *.
      rewrite E1 in H. lia. }
    destruct (Ascii.eqb c (symbol OP_UNARY_MINUS) && unary_position (prev_token cur));
      [|destruct (find _ ARITHMETIC_OPERATORS);
        [|destruct (Ascii.eqb c (symbol OP_LPAREN));
          [|destruct (Ascii.eqb c (symbol OP_RPAREN)); [|discriminate]]]];
      inversion H; subst;
      cbn [iter_index number_str String.length]; rewrite E1; lia.
Qed.

Lemma next_progress (t t' : Tokenizer) (tok : Token) :
  __next__ t = (Return tok, t') -> (remaining t' < remaining t)%nat.
Proof.
  unfold __next__, remaining, expr_len.
  destruct (cursor t) as [cur|]; [|discriminate].
  destruct (scan _ cur) as [r cur'] eqn:E. intros H; inversion H; subst.
  simpl. apply scan_progress in E. rewrite string_drop_length in E. lia.
Qed.

Definition inspect {A : Type} (a : A) : {b : A | a = b} := exist _ a eq_refl.

(** [for token in it: st = body(token, st)], for an iterator [it] that
    [__iter__] returned: [__next__] until it raises, [StopIteration] ending
    the loop and any other exception leaving it. *)
Equations for_each {S : Type} (body : Token -> S -> outcome S)
    (it : Tokenizer) (st : S) : outcome S by wf (remaining it) lt :=
  for_each body it st with inspect (__next__ it) := {
    | exist _ (Return token, it') H with body token st := {
        | Return st' => for_each body it' st'
        | Raise e => Raise e
        | Unmodelled => Unmodelled }
    | exist _ (Raise StopIteration, _) _ => Return st
    | exist _ (Raise e, _) _ => Raise e
    | exist _ (Unmodelled, _) _ => Unmodelled }.
Next Obligation.
  eapply next_progress; eauto.
Qed.

Definition calculate (s : string) : outcome number :=
  let output_stack := OutputStack_init in
  let operator_stack := @nil Operator in
  let tokenizer := Tokenizer_init s in
  stacks <- for_each handle (__iter__ tokenizer) (output_stack, operator_stack) ;;
  output_stack' <- drain (snd stacks) (fst stacks) ;;
  result output_stack'.

(** ** The token sequence of an iterator *)

(** What a consumer of the iterator sees: tokens, then the end of the input
    or an exception. *)
Inductive stream : Type :=
| Stop
| Fail (e : exn)
| Emit (tok : Token) (rest : stream).

(** The sequence [it] produces when [__next__] is called until it raises.
    ([__next__] never leaves the model: [next_modelled].) *)
Equations tokens (it : Tokenizer) : stream by wf (remaining it) lt :=
  tokens it with inspect (__next__ it) := {
    | exist _ (Return token, it') H => Emit token (tokens it')
    | exist _ (Raise StopIteration, _) _ => Stop
    | exist _ (Raise e, _) _ => Fail e
    | exist _ (Unmodelled, _) _ => Stop }.
Next Obligation.
  eapply next_progress; eauto.
Qed.

(** ** A structural reading of the token sequence *)

(** One non-numeric character [c] read with an empty digit run, after the
    token [prev]; [k] gives the tokens of the text behind [c]. *)
Definition lex_symbol (c : ascii) (prev : option Token)
    (k : option Token -> stream) : stream :=
  if Ascii.eqb c " " then k prev
  else if Ascii.eqb c (symbol OP_UNARY_MINUS) && unary_position prev then
    let tok := mkToken OP_UNARY_MINUS (string_of_char c) in Emit tok (k (Some tok))
  else
    match find (fun op => Ascii.eqb c (symbol op)) ARITHMETIC_OPERATORS with
    | Some op => let tok := mkToken op (string_of_char c) in Emit tok (k (Some tok))
    | None =>
        if Ascii.eqb c (symbol OP_LPAREN) then
          let tok := mkToken OP_LPAREN (string_of_char c) in Emit tok (k (Some tok))
        else if Ascii.eqb c (symbol OP_RPAREN) then
          let tok := mkToken OP_RPAREN (string_of_char c) in Emit tok (k (Some tok))
        else Fail (ValueError (string_of_char c))
    end.

(** The tokens of the unread text [unread], for a cursor whose digit run is
    [ns] and whose previous token is [prev]. *)
Fixpoint lex (unread ns : string) (prev : option Token) : stream :=
  match unread with
  | String c rest =>
      if isnumeric c then lex rest (ns ++ string_of_char c) prev
      else if nonempty ns then
        Emit (mkToken NUMBER ns)
             (lex_symbol c (Some (mkToken NUMBER ns)) (fun p => lex rest "" p))
      else lex_symbol c prev (fun p => lex rest "" p)
  | EmptyString =>
      if nonempty ns then Emit (mkToken NUMBER ns) Stop else Stop
  end.

(** The [for] loop over a token sequence. *)
Fixpoint run {S : Type} (body : Token -> S -> outcome S) (s : stream) (st : S)
    : outcome S :=
  match s with
  | Stop => Return st
  | Fail e => Raise e
  | Emit tok rest => st' <- body tok st ;; run body rest st'
  end.

(** The evaluation after the token loop. *)
Definition finish (stacks : Stacks) : outcome number :=
  output_stack' <- drain (snd stacks) (fst stacks) ;; result output_stack'.

(** ** Well-formed expressions *)

(** An expression as it is written: every token with the number of blanks
    in front of it. *)
Inductive expression : Type :=
| Literal (gap : nat) (digits : string)
| Negate (gap : nat) (operand : expression)
| Binary (lhs : expression) (gap : nat) (op : Operator) (rhs : expression)
| Group (gap_open : nat) (inner : expression) (gap_close : nat).

Fixpoint blanks (n : nat) : string :=
  match n with
  | O => ""
  | S n' => String " " (blanks n')
  end.

Fixpoint text (e : expression) : string :=
  match e with
  | Literal gap digits => blanks gap ++ digits
  | Negate gap operand => blanks gap ++ String "-" (text operand)
  | Binary lhs gap op rhs => text lhs ++ blanks gap ++ String (symbol op) (text rhs)
  | Group gap_open inner gap_close =>
      blanks gap_open ++ String "(" (text inner ++ blanks gap_close ++ ")")
  end.

(** The binding level an operand of [op] must have: the operator's own
    precedence on the side it associates to, one more on the other. *)
Definition level_left (op : Operator) : nat :=
  if left_assoc op then precedence op else S (precedence op).

Definition level_right (op : Operator) : nat :=
  if left_assoc op then S (precedence op) else precedence op.

(** [well_formed level e]: [e] may stand, without parentheses, where an
    operand binding at least as tightly as [level] is expected.  The levels
    are the precedences of the operator table. *)
Fixpoint well_formed (level : nat) (e : expression) : bool :=
  match e with
  | Literal _ digits => nonempty digits && string_forallb isdecimal digits
  | Negate _ operand =>
      (level <=? precedence OP_UNARY_MINUS)%nat
      && well_formed (S (precedence OP_UNARY_MINUS)) operand
  | Binary lhs _ op rhs =>
      Operator_in op ARITHMETIC_OPERATORS
      && (level <=? precedence op)%nat
      && well_formed (level_left op) lhs
      && well_formed (level_right op) rhs
  | Group _ inner _ => well_formed 0 inner
  end.

Definition apply_operator (op : Operator) (a b : number) : outcome number :=
  match calc op with
  | Some f => call f a b
  | None => Raise TypeError
  end.

(** The value of an expression by its structure: operands left to right,
    then the operator's [calc]. *)
Fixpoint eval (e : expression) : outcome number :=
  match e with
  | Literal _ digits => n <- int digits ;; Return (VInt n)
  | Negate _ operand =>
      v <- eval operand ;; apply_operator OP_UNARY_MINUS (VInt 0) v
  | Binary lhs _ op rhs =>
      a <- eval lhs ;; b <- eval rhs ;; apply_operator op a b
  | Group _ inner _ => eval inner
  end.

Definition operator_token (op : Operator) : Token :=
  mkToken op (string_of_char (symbol op)).

Fixpoint tokens_of (e : expression) : list Token :=
  match e with
  | Literal _ digits => [mkToken NUMBER digits]
  | Negate _ operand => operator_token OP_UNARY_MINUS :: tokens_of operand
  | Binary lhs _ op rhs => tokens_of lhs ++ operator_token op :: tokens_of rhs
  | Group _ inner _ =>
      operator_token OP_LPAREN :: tokens_of inner ++ [operator_token OP_RPAREN]
  end.

Fixpoint last_token (e : expression) : Token :=
  match e with
  | Literal _ digits => mkToken NUMBER digits
  | Negate _ operand => last_token operand
  | Binary _ _ _ rhs => last_token rhs
  | Group _ _ _ => operator_token OP_RPAREN
  end.

Fixpoint emit_all (l : list Token) (s : stream) : stream :=
  match l with
  | [] => s
  | tok :: l' => Emit tok (emit_all l' s)
  end.

Definition starts_numeric (s : string) : bool :=
  match s with
  | String c _ => isnumeric c
  | EmptyString => false
  end.

(** ** The evaluator on the tokens of an expression *)

(** The rest of [calculate] from the token loop on. *)
Definition exec (k : stream) (stacks : Stacks) : outcome number :=
  stacks' <- run handle k stacks ;; finish stacks'.

Definition operators : list Operator :=
  (ARITHMETIC_OPERATORS ++ [OP_UNARY_MINUS])%list.

(** An operator an expression of binding level [level] may leave on the
    operator stack. *)
Definition pending (level : nat) (op : Operator) : Prop :=
  In op operators /\ (level <= precedence op)%nat.

(** [k] begins by reducing every operator that an operand of level [level]
    left above the stack [base]. *)
Definition closes (level : nat) (k : stream) (base : list Operator) : Prop :=
  forall pend op output_stack,
    Forall (pending level) pend -> pending level op ->
    exec k (output_stack, (op :: pend ++ base)%list)
    = output_stack' <- OutputStack_append output_stack (POp op) ;;
      exec k (output_stack', (pend ++ base)%list).

(** No operator of an operand of level [level] makes the loop of line 169
    pop the top of [base]. *)
Definition shields (level : nat) (base : list Operator) : Prop :=
  match base with
  | [] => True
  | top :: _ => forall op, pending level op -> yields_to top op = false
  end.

(** ** [calculate] on the text of a well-formed expression *)

(** A literal of the grammar: a non-empty run of decimal digits. *)
Definition decimal (digits : string) : bool :=
  nonempty digits && string_forallb isdecimal digits.

Definition literal_value (digits : string) : Z := digits_value 0 digits.

(** The value in [Z] of an expression without division and without a
    negative exponent. *)
Definition exact (f : Lambda) (a b : Z) : option Z :=
  match f with
  | lambda_plus => Some (a + b)
  | lambda_minus => Some (a - b)
  | lambda_times => Some (a * b)
  | lambda_divide => None
  | lambda_exponentiation => if 0 <=? b then Some (a ^ b) else None
  | lambda_unary_minus => Some (0 - b)
  end.

Definition exact_operator (op : Operator) (a b : Z) : option Z :=
  match calc op with
  | Some f => exact f a b
  | None => None
  end.

Fixpoint integer_value (e : expression) : option Z :=
  match e with
  | Literal _ digits => Some (literal_value digits)
  | Negate _ operand =>
      match integer_value operand with
      | Some v => exact_operator OP_UNARY_MINUS 0 v
      | None => None
      end
  | Binary lhs _ op rhs =>
      match integer_value lhs, integer_value rhs with
      | Some a, Some b => exact_operator op a b
      | _, _ => None
      end
  | Group _ inner _ => integer_value inner
  end.

(** ** Unary and binary minus *)

(** No token has been emitted, or the last one is neither a number nor a
    right parenthesis. *)
Definition operand_expected (prev : option Token) : Prop :=
  prev = None
  \/ exists p, prev = Some p /\ token_type p <> NUMBER /\ token_type p <> OP_RPAREN.

(** ** Characters the scanner rejects *)

(** A character that is neither numeric, nor the blank, nor the symbol of an
    operator, nor a parenthesis: the one that reaches line 101. *)
Definition offending (c : ascii) : bool :=
  negb (isnumeric c)
  && negb (Ascii.eqb c " ")
  && negb (existsb (fun op => Ascii.eqb c (symbol op)) ARITHMETIC_OPERATORS)
  && negb (Ascii.eqb c (symbol OP_LPAREN))
  && negb (Ascii.eqb c (symbol OP_RPAREN)).

Definition accepted (c : ascii) : bool := negb (offending c).

(** ** Restarting an iterator *)

(** The instance [it] after [n] calls of [__next__]. *)
Definition after_calls (n : nat) (it : Tokenizer) : Tokenizer :=
  Nat.iter n (fun t => snd (__next__ t)) it.

(** ** Blanks *)

Fixpoint ends_numeric (s : string) : bool :=
  match s with
  | EmptyString => false
  | String c EmptyString => isnumeric c
  | String _ s' => ends_numeric s'
  end.

(** [e'] is [e] with blanks inserted or removed, never between two numeric
    characters: no digit run is split and none is joined to another. *)
Inductive respaced : string -> string -> Prop :=
| respaced_same (s : string) : respaced s s
| respaced_insert (s1 s2 : string) :
    ends_numeric s1 && starts_numeric s2 = false ->
    respaced (s1 ++ s2) (s1 ++ String " " s2)
| respaced_remove (s1 s2 : string) :
    ends_numeric s1 && starts_numeric s2 = false ->
    respaced (s1 ++ String " " s2) (s1 ++ s2)
| respaced_then (s t u : string) :
    respaced s t -> respaced t u -> respaced s u.

(** The digit run in which the scanner is when it has read [s1], for a run
    [ns] pending before it. *)
Definition in_run (ns s1 : string) : bool :=
  match s1 with
  | EmptyString => nonempty ns
  | String _ _ => ends_numeric s1
  end.

(** ** Empty and blank input *)

(** [str.isspace] on U+0000..U+00FF. *)
Definition isspace (c : ascii) : bool :=
  existsb (Nat.eqb (code c)) [9; 10; 11; 12; 13; 28; 29; 30; 31; 32; 133; 160]%nat.


(** ** Division *)

(** The double 1.5: mantissa [3 * 2^51], exponent [-52]. *)
Definition one_and_a_half : float := S754_finite false 6755399441055744 (-52).

Fixpoint zeros (n : nat) : string :=
  match n with
  | O => ""
  | S n' => String "0" (zeros n')
  end.

(** ** Token sequences *)

(** The operators whose token is the one character of their symbol. *)
Definition symbol_operators : list Operator :=
  (operators ++ [OP_LPAREN; OP_RPAREN])%list.

Fixpoint stream_tokens (s : stream) : list Token :=
  match s with
  | Emit tok rest => tok :: stream_tokens rest
  | _ => []
  end.

(** The sequence ends with the end of the input, not with an exception. *)
Fixpoint ends_with_Stop (s : stream) : bool :=
  match s with
  | Emit _ rest => ends_with_Stop rest
  | Stop => true
  | Fail _ => false
  end.

(** A NUMBER carries a non-empty run of numeric characters; every other
    token is an operator or a parenthesis and carries its symbol. *)
Definition token_shape (tok : Token) : bool :=
  if Operator_eqb (token_type tok) NUMBER then
    nonempty (value tok) && string_forallb isnumeric (value tok)
  else
    Operator_in (token_type tok) symbol_operators
    && String.eqb (value tok) (string_of_char (symbol (token_type tok))).

Fixpoint remove_blanks (s : string) : string :=
  match s with
  | EmptyString => ""
  | String c rest =>
      if Ascii.eqb c " " then remove_blanks rest else String c (remove_blanks rest)
  end.

Fixpoint spelling (l : list Token) : string :=
  match l with
  | [] => ""
  | tok :: l' => value tok ++ spelling l'
  end.


(** ** The operands of an operator *)

(** The number of operands [append] pops for an operator. *)
Definition arity (op : Operator) : nat :=
  if Operator_eqb op OP_UNARY_MINUS then 1%nat else 2%nat.

(** ** The outcomes of [calculate] *)

(** An outcome within bounds: a value in [V], an exception in [E]; [U] says
    whether it may leave the model. *)
Definition within {A : Type} (V : A -> Prop) (E : exn -> Prop) (U : Prop)
    (m : outcome A) : Prop :=
  match m with
  | Return a => V a
  | Raise e => E e
  | Unmodelled => U
  end.

(** Operands in [V]; on the operator stack, operators in [ok_op] and left
    parentheses. *)
Definition stacks_hold (V : number -> Prop) (ok_op : Operator -> Prop)
    (stacks : Stacks) : Prop :=
  Forall V (fst stacks)
  /\ Forall (fun op => ok_op op \/ op = OP_LPAREN) (snd stacks).

(** The exceptions that leave [calculate]. *)
Definition raisable (e : exn) : bool :=
  match e with
  | ValueError _ | IndexError | ZeroDivisionError | OverflowError => true
  | TypeError | AttributeError | StopIteration => false
  end.

Definition is_int (v : number) : bool :=
  match v with
  | VInt _ => true
  | VFloat _ => false
  end.

(** The characters of the expressions of the problem statement, with the
    product sign: everything the scanner accepts but ['/'] and ['^']. *)
Definition additive (c : ascii) : bool :=
  accepted c && negb (Ascii.eqb c "/") && negb (Ascii.eqb c "^").

(** ** Texts that give a value *)

(** The number of parentheses open after [s], for [depth] open before it;
    [None] when a right parenthesis has none to close. *)
Fixpoint paren_depth (s : string) (depth : nat) : option nat :=
  match s with
  | EmptyString => Some depth
  | String c rest =>
      if Ascii.eqb c "(" then paren_depth rest (S depth)
      else if Ascii.eqb c ")" then
        match depth with
        | O => None
        | S depth' => paren_depth rest depth'
        end
      else paren_depth rest depth
  end.

Definition balanced (s : string) : bool :=
  match paren_depth s 0 with
  | Some O => true
  | _ => false
  end.

(** The left parentheses on the operator stack. *)
Definition open_parens (operator_stack : list Operator) : nat :=
  length (filter (fun op => Operator_eqb op OP_LPAREN) operator_stack).

(** A decimal digit, the blank, or the symbol of an operator or of a
    parenthesis. *)
Definition plain (c : ascii) : bool :=
  isdecimal c || Ascii.eqb c " "
  || existsb (fun op => Ascii.eqb c (symbol op)) symbol_operators.

(** ** Shapes of expressions *)

(** An expression of decimal literals and arithmetic operators, whatever the
    binding levels of its operands. *)
Fixpoint shaped (e : expression) : bool :=
  match e with
  | Literal _ digits => decimal digits
  | Negate _ operand => shaped operand
  | Binary lhs _ op rhs =>
      Operator_in op ARITHMETIC_OPERATORS && shaped lhs && shaped rhs
  | Group _ inner _ => shaped inner
  end.

(** [e] with every operand of an operator put in parentheses. *)
Fixpoint parenthesize (e : expression) : expression :=
  match e with
  | Literal gap digits => Literal gap digits
  | Negate gap operand => Negate gap (Group 0 (parenthesize operand) 0)
  | Binary lhs gap op rhs =>
      Binary (Group 0 (parenthesize lhs) 0) gap op (Group 0 (parenthesize rhs) 0)
  | Group gap_open inner gap_close => Group gap_open (parenthesize inner) gap_close
  end.

(** ** The stacks at the end *)

(** The token loop followed by [fin] on the stacks it leaves; [exec] is
    [exec_to finish]. *)
Definition exec_to {A : Type} (fin : Stacks -> outcome A) (k : stream)
    (stacks : Stacks) : outcome A :=
  stacks' <- run handle k stacks ;; fin stacks'.

Definition closes_to {A : Type} (fin : Stacks -> outcome A) (level : nat)
    (k : stream) (base : list Operator) : Prop :=
  forall pend op output_stack,
    Forall (pending level) pend -> pending level op ->
    exec_to fin k (output_stack, (op :: pend ++ base)%list)
    = output_stack' <- OutputStack_append output_stack (POp op) ;;
      exec_to fin k (output_stack', (pend ++ base)%list).

(** Lines 203-207 on the stacks the token loop leaves: the operand stack
    that [result] reads. *)
Definition drained (stacks : Stacks) : outcome OutputStack :=
  drain (snd stacks) (fst stacks).

(** An expression whose binary operators are ['+'], ['-'] and ['*']. *)
Fixpoint additive_expression (e : expression) : bool :=
  match e with
  | Literal _ _ => true
  | Negate _ operand => additive_expression operand
  | Binary lhs _ op rhs =>
      Operator_in op [OP_PLUS; OP_MINUS; OP_TIMES]
      && additive_expression lhs && additive_expression rhs
  | Group _ inner _ => additive_expression inner
  end.

(** A literal or a parenthesised expression: an operand that leaves no
    operator on the operator stack. *)
Definition atomic (e : expression) : bool :=
  match e with
  | Literal _ _ | Group _ _ _ => true
  | Negate _ _ | Binary _ _ _ _ => false
  end.

(** * Properties *)

(** Case analysis on a member of [ARITHMETIC_OPERATORS], of [operators]. *)
Ltac each_arith H :=
  destruct H as [<-|[<-|[<-|[<-|[<-|[]]]]]].

Ltac each_operator H :=
  destruct H as [<-|[<-|[<-|[<-|[<-|[<-|[]]]]]]].

(** ** The unread text *)

(** [scan] reads the text through [string_drop]: the unread text at index
    [i] starts with [char_at i], and is empty exactly from [expr_len] on. *)
Lemma unread_char_at (t : Tokenizer) (i : nat) :
  char_at t i
  = match string_drop i (expr t) with
    | String c _ => Return c
    | EmptyString => Raise IndexError
    end.
Proof.
  unfold char_at. generalize (expr t). induction i as [|i IH]; intros [|c s];
    simpl; try reflexivity. apply IH.
Qed.

Lemma unread_empty (t : Tokenizer) (i : nat) :
  string_drop i (expr t) = "" <-> ~ (i < expr_len t)%nat.
Proof.
  unfold expr_len. pose proof (string_drop_length i (expr t)) as H. split.
  - intros E. rewrite E in H. simpl in H. lia.
  - intros Hi. destruct (string_drop i (expr t)); [reflexivity|].
    simpl in H. lia.
Qed.

(** ** The token sequence of an iterator *)

Lemma for_each_step {S : Type} (body : Token -> S -> outcome S) it st :
  for_each body it st =
  match __next__ it with
  | (Return token, it') => st' <- body token st ;; for_each body it' st'
  | (Raise StopIteration, _) => Return st
  | (Raise e, _) => Raise e
  | (Unmodelled, _) => Unmodelled
  end.
Proof.
  remember (__next__ it) as r eqn:Hr.
  simp for_each.
  destruct (inspect (__next__ it)) as [[[tok|e|] it'] H];
    rewrite H in Hr; subst r; simp for_each.
  - destruct (body tok st); reflexivity.
  - destruct e; simp for_each; reflexivity.
  - reflexivity.
Qed.

Lemma tokens_step it :
  tokens it =
  match __next__ it with
  | (Return token, it') => Emit token (tokens it')
  | (Raise StopIteration, _) => Stop
  | (Raise e, _) => Fail e
  | (Unmodelled, _) => Stop
  end.
Proof.
  remember (__next__ it) as r eqn:Hr.
  simp tokens.
  destruct (inspect (__next__ it)) as [[[tok|e|] it'] H];
    rewrite H in Hr; subst r; simp tokens; try reflexivity.
  destruct e; simp tokens; reflexivity.
Qed.

(** ** A structural reading of the token sequence *)

Lemma scan_modelled (unread : string) :
  forall cur, fst (scan unread cur) <> Unmodelled.
Proof.
  induction unread as [|c rest IH]; intros cur; cbn [scan].
  - destruct (nonempty (number_str cur)); simpl; discriminate.
  - destruct (negb (isnumeric c) && nonempty (number_str cur));
      [simpl; discriminate|].
    destruct (isnumeric c); [apply IH|].
    destruct (Ascii.eqb c " "); [apply IH|].
    destruct (Ascii.eqb c (symbol OP_UNARY_MINUS) && unary_position (prev_token cur));
      [simpl; discriminate|].
    destruct (find _ ARITHMETIC_OPERATORS); [simpl; discriminate|].
    destruct (Ascii.eqb c (symbol OP_LPAREN)); [simpl; discriminate|].
    destruct (Ascii.eqb c (symbol OP_RPAREN)); simpl; discriminate.
Qed.

Lemma next_modelled (it : Tokenizer) : fst (__next__ it) <> Unmodelled.
Proof.
  unfold __next__. destruct (cursor it) as [cur|]; [|simpl; discriminate].
  pose proof (scan_modelled (string_drop (iter_index cur) (expr it)) cur) as H.
  destruct (scan _ cur); exact H.
Qed.

Lemma for_each_tokens {S : Type} (body : Token -> S -> outcome S) :
  forall it st, for_each body it st = run body (tokens it) st.
Proof.
  intros it. remember (remaining it) as n eqn:Hn. revert it Hn.
  induction n as [n IH] using lt_wf_ind. intros it Hn st.
  rewrite for_each_step, tokens_step.
  pose proof (next_modelled it) as Hm.
  destruct (__next__ it) as [[tok|e|] it'] eqn:E.
  - cbn [run]. destruct (body tok st) as [st'| |]; cbn [bind]; auto.
    eapply IH; [|reflexivity]. subst n. eapply next_progress; eauto.
  - destruct e; reflexivity.
  - exfalso. apply Hm. reflexivity.
Qed.

Lemma string_drop_S (n : nat) (e : string) (c : ascii) (rest : string) :
  string_drop n e = String c rest -> string_drop (S n) e = rest.
Proof.
  revert e; induction n as [|n IH]; intros [|a e] H; simpl in *;
    try discriminate.
  - inversion H; destruct rest; reflexivity.
  - apply IH in H. exact H.
Qed.

Lemma nonempty_false (s : string) : nonempty s = false -> s = "".
Proof. destruct s; [reflexivity|discriminate]. Qed.

Lemma tokens_lex (e : string) (unread : string) :
  forall cur,
    string_drop (iter_index cur) e = unread ->
    tokens (mkTokenizer e (Some cur)) = lex unread (number_str cur) (prev_token cur).
Proof.
  induction unread as [|c rest IH]; intros [i ns prev] Hd;
    cbn [iter_index number_str prev_token] in *.
  - rewrite tokens_step. unfold __next__. cbn [cursor expr iter_index].
    rewrite Hd. cbn [scan lex number_str iter_index].
    destruct (nonempty ns); [|reflexivity].
    f_equal. rewrite tokens_step. unfold __next__. cbn [cursor expr iter_index].
    rewrite Hd. reflexivity.
  - pose proof (string_drop_S _ _ _ _ Hd) as Hd'.
    assert (IH' : forall ns' p,
      tokens (mkTokenizer e (Some (mkCursor (S i) ns' p))) = lex rest ns' p)
      by (intros; apply (IH (mkCursor (S i) ns' p) Hd')).
    assert (Hnext : forall ns' p,
      tokens (mkTokenizer e (Some (mkCursor (S i) ns' p)))
      = match scan rest (mkCursor (S i) ns' p) with
        | (Return token, cur') => Emit token (tokens (mkTokenizer e (Some cur')))
        | (Raise StopIteration, _) => Stop
        | (Raise x, _) => Fail x
        | (Unmodelled, _) => Stop
        end).
    { intros. rewrite tokens_step. unfold __next__.
      cbn [cursor expr iter_index]. rewrite Hd'.
      destruct (scan rest _) as [[?|?|] ?]; reflexivity. }
    assert (Hhere : forall ns' p,
      tokens (mkTokenizer e (Some (mkCursor i ns' p)))
      = match scan (String c rest) (mkCursor i ns' p) with
        | (Return token, cur') => Emit token (tokens (mkTokenizer e (Some cur')))
        | (Raise StopIteration, _) => Stop
        | (Raise x, _) => Fail x
        | (Unmodelled, _) => Stop
        end).
    { intros. rewrite tokens_step. unfold __next__.
      cbn [cursor expr iter_index]. rewrite Hd.
      destruct (scan (String c rest) _) as [[?|?|] ?]; reflexivity. }
    assert (Hsym : forall p, isnumeric c = false ->
      tokens (mkTokenizer e (Some (mkCursor i "" p)))
      = lex_symbol c p (fun q => lex rest "" q)).
    { intros p En. rewrite Hhere.
      cbn [scan number_str iter_index prev_token nonempty].
      rewrite andb_false_r, En.
      unfold lex_symbol.
      destruct (Ascii.eqb c " ").
      { rewrite <- IH', Hnext. reflexivity. }
      destruct (Ascii.eqb c (symbol OP_UNARY_MINUS) && unary_position p).
      { cbv zeta. f_equal. apply IH'. }
      destruct (find _ ARITHMETIC_OPERATORS).
      { cbv zeta. f_equal. apply IH'. }
      destruct (Ascii.eqb c (symbol OP_LPAREN)).
      { cbv zeta. f_equal. apply IH'. }
      destruct (Ascii.eqb c (symbol OP_RPAREN)).
      { cbv zeta. f_equal. apply IH'. }
      reflexivity. }
    cbn [lex]. destruct (isnumeric c) eqn:En.
    + rewrite <- IH', Hhere, Hnext.
      cbn [scan number_str iter_index prev_token]. rewrite En. reflexivity.
    + destruct (nonempty ns) eqn:Ens.
      * rewrite Hhere. cbn [scan number_str iter_index prev_token].
        rewrite En, Ens. cbn [negb andb]. f_equal.
        apply Hsym. reflexivity.
      * apply nonempty_false in Ens. subst ns. apply Hsym. reflexivity.
Qed.

Lemma tokens_iter (t : Tokenizer) : tokens (__iter__ t) = lex (expr t) "" None.
Proof. unfold __iter__. apply tokens_lex. reflexivity. Qed.

Lemma calculate_lex (s : string) :
  calculate s = stacks <- run handle (lex s "" None) ([], []) ;; finish stacks.
Proof.
  unfold calculate, finish, OutputStack_init.
  rewrite for_each_tokens, tokens_iter. reflexivity.
Qed.

(** ** Lexing the text of an expression *)

Lemma string_app_assoc (a b c : string) : (a ++ b) ++ c = a ++ (b ++ c).
Proof. induction a as [|x a IH]; simpl; [reflexivity|now rewrite IH]. Qed.

Lemma string_app_nil_r (a : string) : a ++ "" = a.
Proof. induction a as [|x a IH]; simpl; [reflexivity|now rewrite IH]. Qed.

Lemma emit_all_app (l1 l2 : list Token) (s : stream) :
  emit_all (l1 ++ l2) s = emit_all l1 (emit_all l2 s).
Proof. induction l1 as [|t l1 IH]; simpl; [reflexivity|now rewrite IH]. Qed.

Lemma lex_blanks (n : nat) (rest : string) (prev : option Token) :
  lex (blanks n ++ rest) "" prev = lex rest "" prev.
Proof. induction n as [|n IH]; simpl; auto. Qed.

Lemma isdecimal_isnumeric (c : ascii) : isdecimal c = true -> isnumeric c = true.
Proof. unfold isdecimal, isnumeric. intros ->. reflexivity. Qed.

Lemma lex_pending_number (ns rest : string) (prev : option Token) :
  nonempty ns = true -> starts_numeric rest = false ->
  lex rest ns prev = Emit (mkToken NUMBER ns) (lex rest "" (Some (mkToken NUMBER ns))).
Proof.
  intros Hns Hrest. destruct rest as [|c rest]; cbn [lex].
  - rewrite Hns. reflexivity.
  - simpl in Hrest. rewrite Hrest, Hns. reflexivity.
Qed.

Lemma lex_digits (digits : string) :
  forall ns rest prev,
    string_forallb isdecimal digits = true ->
    nonempty (ns ++ digits) = true ->
    starts_numeric rest = false ->
    lex (digits ++ rest) ns prev
    = Emit (mkToken NUMBER (ns ++ digits))
           (lex rest "" (Some (mkToken NUMBER (ns ++ digits)))).
Proof.
  induction digits as [|c digits IH]; intros ns rest prev Hd Hne Hrest.
  - rewrite string_app_nil_r in *. simpl. apply lex_pending_number; assumption.
  - simpl in Hd. apply andb_true_iff in Hd as [Hc Hd].
    simpl. rewrite (isdecimal_isnumeric _ Hc).
    replace (ns ++ String c digits) with ((ns ++ string_of_char c) ++ digits)
      in * by (rewrite string_app_assoc; reflexivity).
    apply IH; assumption.
Qed.

Lemma last_token_kind (e : expression) :
  unary_position (Some (last_token e)) = false.
Proof. induction e; simpl; auto. Qed.

Lemma Operator_in_arith (op : Operator) :
  Operator_in op ARITHMETIC_OPERATORS = true -> In op ARITHMETIC_OPERATORS.
Proof.
  destruct op as [sy la pr [f|]]; unfold Operator_in, Operator_eqb; simpl;
    intros H; [|rewrite !andb_false_r in H; discriminate].
  repeat match type of H with
  | (?a || ?b) = true =>
      apply orb_true_iff in H; destruct H as [H|H]
  end; try discriminate;
  repeat match type of H with
  | (_ && _) = true => let H1 := fresh in apply andb_true_iff in H as [H H1]
  end;
  match goal with
  | Hs : Ascii.eqb _ _ = true, Hl : Bool.eqb _ _ = true,
    Hp : Nat.eqb _ _ = true, Hf : Lambda_eqb _ _ = true |- _ =>
      apply Ascii.eqb_eq in Hs; apply Bool.eqb_prop in Hl;
      apply Nat.eqb_eq in Hp; destruct f; try discriminate; subst
  end; unfold ARITHMETIC_OPERATORS, OP_PLUS, OP_MINUS, OP_TIMES, OP_DIVIDE,
         OP_EXPONENTIATION; simpl; tauto.
Qed.

Lemma lex_text (e : expression) :
  forall level rest prev,
    well_formed level e = true ->
    unary_position prev = true ->
    starts_numeric rest = false ->
    lex (text e ++ rest) "" prev
    = emit_all (tokens_of e) (lex rest "" (Some (last_token e))).
Proof.
  induction e as [gap digits|gap a IH|l IHl gap op r IHr|g1 e IH g2];
    intros level rest prev Hwf Hprev Hrest; cbn [text tokens_of last_token emit_all].
  - simpl in Hwf. apply andb_true_iff in Hwf as [Hne Hd].
    rewrite string_app_assoc, lex_blanks.
    apply (lex_digits digits "" rest prev Hd Hne Hrest).
  - simpl in Hwf. apply andb_true_iff in Hwf as [_ Hwf].
    rewrite string_app_assoc, lex_blanks. cbn [String.append lex].
    change (isnumeric "-") with false. cbn [nonempty].
    unfold lex_symbol. change (Ascii.eqb "-" " ") with false.
    change (Ascii.eqb "-" (symbol OP_UNARY_MINUS)) with true.
    rewrite Hprev. cbn [andb]. cbv zeta. f_equal.
    eapply IH; eauto.
  - simpl in Hwf. apply andb_true_iff in Hwf as [Hwf Hwr].
    apply andb_true_iff in Hwf as [Hwf Hwl].
    apply andb_true_iff in Hwf as [Hop _].
    apply Operator_in_arith in Hop.
    rewrite !string_app_assoc. cbn [String.append].
    rewrite emit_all_app. cbn [emit_all].
    erewrite IHl; eauto.
    2:{ destruct gap; [|reflexivity]. simpl. each_arith Hop; reflexivity. }
    f_equal. rewrite lex_blanks.
    pose proof (last_token_kind l) as Hl.
    assert (Hr : unary_position (Some (operator_token op)) = true)
      by (each_arith Hop; reflexivity).
    rewrite <- (IHr _ rest (Some (operator_token op)) Hwr Hr Hrest).
    cbn [lex]. unfold lex_symbol.
    each_arith Hop; cbn [symbol OP_PLUS OP_MINUS OP_TIMES OP_DIVIDE OP_EXPONENTIATION];
      try rewrite Hl; reflexivity.
  - simpl in Hwf.
    rewrite string_app_assoc, lex_blanks. cbn [String.append lex].
    change (isnumeric "(") with false. cbn [nonempty].
    unfold lex_symbol at 1. change (Ascii.eqb "(" " ") with false.
    change (Ascii.eqb "(" (symbol OP_UNARY_MINUS)) with false. cbn [andb].
    change (find _ ARITHMETIC_OPERATORS) with (@None Operator).
    change (Ascii.eqb "(" (symbol OP_LPAREN)) with true. cbv zeta iota.
    rewrite emit_all_app. cbn [emit_all]. f_equal.
    rewrite string_app_assoc.
    erewrite IH; eauto.
    2:{ destruct g2; reflexivity. }
    f_equal. rewrite string_app_assoc, lex_blanks. reflexivity.
Qed.

(** ** The evaluator on the tokens of an expression *)

Lemma bind_assoc {A B C : Type} (m : outcome A) (f : A -> outcome B)
    (g : B -> outcome C) :
  bind (bind m f) g = bind m (fun a => bind (f a) g).
Proof. destruct m; reflexivity. Qed.

Lemma bind_ext {A B : Type} (m : outcome A) (f g : A -> outcome B) :
  (forall a, f a = g a) -> bind m f = bind m g.
Proof. intros H. destruct m; simpl; auto. Qed.

Lemma exec_Emit (tok : Token) (k : stream) (stacks : Stacks) :
  exec (Emit tok k) stacks = stacks' <- handle tok stacks ;; exec k stacks'.
Proof. unfold exec. cbn [run]. apply bind_assoc. Qed.

Lemma calculate_exec (s : string) : calculate s = exec (lex s "" None) ([], []).
Proof. apply calculate_lex. Qed.

Lemma pending_mono (level level' : nat) (op : Operator) :
  (level <= level')%nat -> pending level' op -> pending level op.
Proof. intros Hle [Hin Hp]. split; [assumption|lia]. Qed.

Lemma closes_push (level level' : nat) (k : stream) (base : list Operator)
    (op : Operator) :
  (level <= level')%nat -> pending level op ->
  closes level k base -> closes level' k (op :: base).
Proof.
  intros Hle Hop Hc pend op' out Hpend Hop'.
  replace (pend ++ op :: base)%list with ((pend ++ [op]) ++ base)%list
    by (rewrite <- app_assoc; reflexivity).
  apply Hc.
  - apply Forall_app. split.
    + eapply Forall_impl; [|exact Hpend]. intros a. apply pending_mono, Hle.
    + constructor; [assumption|constructor].
  - eapply pending_mono; eauto.
Qed.

Lemma pending_not_lparen (level : nat) (op : Operator) :
  pending level op -> Operator_eqb op OP_LPAREN = false.
Proof. intros [Hin _]. each_operator Hin; reflexivity. Qed.

Lemma closes_Stop (level : nat) : closes level Stop [].
Proof.
  intros pend op out _ Hop. unfold exec, finish. cbn [run bind snd fst drain].
  rewrite (pending_not_lparen _ _ Hop). rewrite bind_assoc. reflexivity.
Qed.

Lemma handle_rparen (v : string) (out : OutputStack) (top : Operator)
    (ops : list Operator) :
  handle (mkToken OP_RPAREN v) (out, (top :: ops)%list)
  = s <- pop_to_lparen (top :: ops) out ;;
    match snd s with
    | top' :: rest =>
        if negb (Operator_eqb top' OP_LPAREN) then Raise mismatched
        else Return (fst s, rest)
    | [] => Raise IndexError
    end.
Proof. reflexivity. Qed.

Lemma closes_rparen (level : nat) (k : stream) (base : list Operator) :
  closes level (Emit (operator_token OP_RPAREN) k) (OP_LPAREN :: base).
Proof.
  intros pend op out _ Hop. rewrite exec_Emit.
  unfold operator_token. rewrite handle_rparen.
  cbn [pop_to_lparen]. rewrite (pending_not_lparen _ _ Hop). cbn [negb].
  rewrite !bind_assoc. apply bind_ext. intros out'.
  rewrite exec_Emit.
  destruct pend; cbn [app]; rewrite handle_rparen, ?bind_assoc; reflexivity.
Qed.

Lemma handle_operator (op : Operator) (stacks : Stacks) :
  In op operators ->
  handle (operator_token op) stacks
  = s <- pop_preceding op (snd stacks) (fst stacks) ;; Return (fst s, op :: snd s).
Proof.
  intros Hin. destruct stacks as [out ops]. unfold handle.
  cbn [operator_token token_type fst snd].
  each_operator Hin; reflexivity.
Qed.

Lemma closes_operator (op : Operator) (level : nat) (k : stream)
    (base : list Operator) :
  In op operators ->
  (forall op', pending level op' -> yields_to op' op = true) ->
  closes level (Emit (operator_token op) k) base.
Proof.
  intros Hin Hy pend op' out _ Hop'. rewrite exec_Emit.
  rewrite handle_operator by assumption. cbn [fst snd pop_preceding].
  rewrite (Hy _ Hop'). rewrite !bind_assoc. apply bind_ext. intros out'.
  rewrite exec_Emit, handle_operator by assumption.
  rewrite !bind_assoc. reflexivity.
Qed.

Lemma handle_shielded (op : Operator) (level : nat) (out : OutputStack)
    (base : list Operator) :
  pending level op -> shields level base ->
  handle (operator_token op) (out, base) = Return (out, op :: base).
Proof.
  intros Hop Hs. rewrite handle_operator by apply Hop. cbn [fst snd].
  destruct base as [|top base]; [reflexivity|].
  cbn [pop_preceding]. simpl in Hs. rewrite (Hs _ Hop). reflexivity.
Qed.

Lemma yields_left (op op' : Operator) :
  In op ARITHMETIC_OPERATORS -> pending (level_left op) op' ->
  yields_to op' op = true.
Proof.
  intros Hin [Hin' Hp]. each_arith Hin; each_operator Hin';
    try reflexivity; exfalso; revert Hp; cbv; lia.
Qed.

Lemma shields_right (op : Operator) (base : list Operator) :
  In op ARITHMETIC_OPERATORS -> shields (level_right op) (op :: base).
Proof.
  intros Hin op' [Hin' Hp]. each_arith Hin; each_operator Hin';
    try reflexivity; exfalso; revert Hp; cbv; lia.
Qed.

Lemma shields_mono (level level' : nat) (base : list Operator) :
  (level <= level')%nat -> shields level base -> shields level' base.
Proof.
  intros Hle. destruct base as [|top base]; [auto|].
  simpl. intros Hs op Hop. apply Hs. eapply pending_mono; eauto.
Qed.

Lemma level_left_ge (op : Operator) : (precedence op <= level_left op)%nat.
Proof. unfold level_left. destruct (left_assoc op); lia. Qed.

Lemma level_right_ge (op : Operator) : (precedence op <= level_right op)%nat.
Proof. unfold level_right. destruct (left_assoc op); lia. Qed.

Lemma append_binary (op : Operator) (a b : number) (out : OutputStack) :
  In op ARITHMETIC_OPERATORS ->
  OutputStack_append (b :: a :: out) (POp op)
  = v <- apply_operator op a b ;; Return (v :: out).
Proof. intros Hin. each_arith Hin; reflexivity. Qed.

(** Reading the tokens of a well-formed expression pushes its value, once
    what follows has reduced the operators it left pending. *)
Lemma exec_expression (e : expression) :
  forall level k out base,
    well_formed level e = true ->
    closes level k base ->
    shields level base ->
    exec (emit_all (tokens_of e) k) (out, base)
    = v <- eval e ;; exec k (v :: out, base).
Proof.
  induction e as [gap digits|gap a IH|l IHl gap op r IHr|g1 e IH g2];
    intros level k out base Hwf Hc Hs; cbn [tokens_of emit_all eval].
  - rewrite exec_Emit. unfold handle. cbn [token_type value].
    change (Operator_eqb NUMBER NUMBER) with true. cbv iota.
    rewrite !bind_assoc. apply bind_ext. intros n. reflexivity.
  - simpl in Hwf. apply andb_true_iff in Hwf as [Hlevel Hwf].
    apply Nat.leb_le in Hlevel.
    assert (Hun : pending level OP_UNARY_MINUS)
      by (split; [unfold operators; simpl; tauto|exact Hlevel]).
    rewrite exec_Emit. erewrite handle_shielded; [|exact Hun|exact Hs]. cbn [bind].
    rewrite (IH (S (precedence OP_UNARY_MINUS)) k out (OP_UNARY_MINUS :: base) Hwf).
    + rewrite bind_assoc. apply bind_ext. intros v.
      pose proof (Hc [] OP_UNARY_MINUS (v :: out) (Forall_nil _) Hun) as E.
      cbn [app] in E. etransitivity; [exact E|]. cbn [OutputStack_append].
      change (Operator_eqb OP_UNARY_MINUS OP_UNARY_MINUS) with true. cbv iota. unfold apply_operator. cbn [calc OP_UNARY_MINUS].
      rewrite !bind_assoc. reflexivity.
    + eapply closes_push; [|exact Hun|exact Hc]. simpl in *. lia.
    + intros op [Hin Hp]. each_operator Hin; exfalso; revert Hp; cbv; lia.
  - simpl in Hwf. apply andb_true_iff in Hwf as [Hwf Hwr].
    apply andb_true_iff in Hwf as [Hwf Hwl].
    apply andb_true_iff in Hwf as [Hop Hlevel].
    apply Operator_in_arith in Hop. apply Nat.leb_le in Hlevel.
    assert (Hin : In op operators) by (apply in_or_app; left; exact Hop).
    assert (Hpend : pending level op) by (split; assumption).
    pose proof (level_left_ge op) as Hll. pose proof (level_right_ge op) as Hlr.
    rewrite emit_all_app. cbn [emit_all].
    rewrite (IHl (level_left op) _ out base Hwl).
    + rewrite !bind_assoc. apply bind_ext. intros a.
      rewrite exec_Emit. erewrite handle_shielded; [|exact Hpend|exact Hs]. cbn [bind].
      rewrite (IHr (level_right op) k (a :: out) (op :: base) Hwr).
      * rewrite !bind_assoc. apply bind_ext. intros b.
        pose proof (Hc [] op (b :: a :: out) (Forall_nil _) Hpend) as E.
        cbn [app] in E. etransitivity; [exact E|].
        rewrite append_binary by exact Hop. rewrite !bind_assoc. reflexivity.
      * eapply closes_push; [|exact Hpend|exact Hc]. lia.
      * apply shields_right, Hop.
    + apply closes_operator; [exact Hin|]. intros op'. apply yields_left, Hop.
    + eapply shields_mono; [|exact Hs]. lia.
  - simpl in Hwf. rewrite exec_Emit. unfold handle at 1.
    cbn [operator_token token_type].
    change (Operator_eqb OP_LPAREN NUMBER) with false.
    change (Operator_in OP_LPAREN (ARITHMETIC_OPERATORS ++ [OP_UNARY_MINUS])) with false.
    change (Operator_eqb OP_LPAREN OP_LPAREN) with true. cbv iota. cbn [bind].
    rewrite emit_all_app. cbn [emit_all].
    rewrite (IH 0%nat _ out (OP_LPAREN :: base) Hwf).
    + apply bind_ext. intros v. rewrite exec_Emit. reflexivity.
    + apply closes_rparen.
    + intros op _. reflexivity.
Qed.

(** ** [calculate] on the text of a well-formed expression *)

Lemma lex_blanks_only (n : nat) (prev : option Token) : lex (blanks n) "" prev = Stop.
Proof.
  rewrite <- (string_app_nil_r (blanks n)), lex_blanks. reflexivity.
Qed.

Lemma starts_numeric_blanks (n : nat) : starts_numeric (blanks n) = false.
Proof. destruct n; reflexivity. Qed.

Lemma bind_Return {A : Type} (m : outcome A) : bind m (fun a => Return a) = m.
Proof. destruct m; reflexivity. Qed.

Lemma calculate_text (e : expression) (n : nat) :
  well_formed 0 e = true -> calculate (text e ++ blanks n) = eval e.
Proof.
  intros Hwf. rewrite calculate_exec.
  rewrite (lex_text e 0 (blanks n) None Hwf eq_refl (starts_numeric_blanks n)).
  rewrite lex_blanks_only.
  etransitivity; [apply (exec_expression e 0 Stop [] [] Hwf (closes_Stop 0) I)|].
  rewrite <- (bind_Return (eval e)) at 2. apply bind_ext. intros v. reflexivity.
Qed.

Lemma int_decimal (digits : string) :
  decimal digits = true -> int digits = Return (literal_value digits).
Proof.
  unfold decimal, int. intros H. apply andb_true_iff in H as [Hne Hd].
  destruct digits; [discriminate|]. rewrite Hd. reflexivity.
Qed.

Lemma digits_value_nonneg (digits : string) :
  forall acc, 0 <= acc -> 0 <= digits_value acc digits.
Proof.
  induction digits as [|c digits IH]; intros acc Hacc; cbn [digits_value];
    [assumption|].
  apply IH. unfold digit_value. lia.
Qed.

Lemma literal_value_nonneg (digits : string) : 0 <= literal_value digits.
Proof. apply digits_value_nonneg. lia. Qed.

Lemma exact_call (f : Lambda) (a b z : Z) :
  exact f a b = Some z -> call f (VInt a) (VInt b) = Return (VInt z).
Proof.
  destruct f; simpl; intros H; try (inversion H; reflexivity); try discriminate.
  destruct (0 <=? b); inversion H; reflexivity.
Qed.

Lemma eval_integer_value (e : expression) :
  forall level z,
    well_formed level e = true -> integer_value e = Some z ->
    eval e = Return (VInt z).
Proof.
  induction e as [gap digits|gap a IH|l IHl gap op r IHr|g1 e IH g2];
    intros level z Hwf Hv; simpl in Hwf, Hv; cbn [eval].
  - inversion Hv; subst. rewrite (int_decimal digits Hwf). reflexivity.
  - apply andb_true_iff in Hwf as [_ Hwf].
    destruct (integer_value a) as [v|]; [|discriminate].
    rewrite (IH _ v Hwf eq_refl). cbn [bind].
    unfold exact_operator, apply_operator in *.
    destruct (calc OP_UNARY_MINUS); [|discriminate]. apply exact_call, Hv.
  - apply andb_true_iff in Hwf as [Hwf Hwr].
    apply andb_true_iff in Hwf as [_ Hwl].
    destruct (integer_value l) as [a|]; [|discriminate].
    destruct (integer_value r) as [b|]; [|discriminate].
    rewrite (IHl _ a Hwl eq_refl), (IHr _ b Hwr eq_refl). cbn [bind].
    unfold exact_operator, apply_operator in *.
    destruct (calc op); [|discriminate]. apply exact_call, Hv.
  - eapply IH; eauto.
Qed.

(** ** Precedence and associativity *)

(** C1, as the code has it.  The table ranks unary minus (4) above
    exponentiation (3), above multiplication and division (2), above addition
    and subtraction (1).  For every expression that is well formed for these
    ranks, with any blanks between its tokens, [calculate] gives the value the
    expression has by its structure; in particular a unary minus in front of
    the base of a power belongs to the base: the text of [-a^b] evaluates to
    [(-a)^b]. *)
Theorem calculate_follows_table_precedence (e : expression) (n : nat)
    (a b : string) :
  well_formed 0 e = true -> decimal a = true -> decimal b = true ->
  (precedence OP_PLUS = precedence OP_MINUS
   /\ precedence OP_MINUS < precedence OP_TIMES
   /\ precedence OP_TIMES = precedence OP_DIVIDE
   /\ precedence OP_DIVIDE < precedence OP_EXPONENTIATION
   /\ precedence OP_EXPONENTIATION < precedence OP_UNARY_MINUS)%nat
  /\ calculate (text e ++ blanks n) = eval e
  /\ calculate ("-" ++ a ++ "^" ++ b)
     = Return (VInt ((- literal_value a) ^ literal_value b)).
Proof.
  intros Hwf Ha Hb. split; [|split].
  - cbv. lia.
  - apply calculate_text, Hwf.
  - pose (t := Binary (Negate 0 (Literal 0 a)) 0 OP_EXPONENTIATION (Literal 0 b)).
    assert (Ht : well_formed 0 t = true).
    { cbn. unfold decimal in Ha, Hb. rewrite Ha, Hb. reflexivity. }
    pose proof (calculate_text t 0 Ht) as H.
    cbn [text t blanks String.append symbol OP_EXPONENTIATION] in H.
    rewrite string_app_nil_r in H.
    cbn [String.append]. rewrite H. unfold t. cbn [eval].
    rewrite (int_decimal a Ha), (int_decimal b Hb).
    cbn [bind apply_operator calc OP_UNARY_MINUS OP_EXPONENTIATION call
         py_sub py_pow].
    pose proof (literal_value_nonneg b) as Hnn.
    apply Z.leb_le in Hnn. rewrite Hnn.
    replace (0 - literal_value a) with (- literal_value a) by lia. reflexivity.
Qed.

Lemma calculate_follows_table_precedence_witness :
  well_formed 0
    (Binary (Binary (Negate 0 (Literal 0 "3")) 0 OP_EXPONENTIATION (Literal 0 "2"))
            1 OP_PLUS
            (Binary (Literal 1 "2") 0 OP_TIMES
                    (Binary (Literal 0 "4") 0 OP_EXPONENTIATION (Literal 0 "2"))))
  = true
  /\ calculate "-3^2 + 2*4^2" = Return (VInt 41)
  /\ calculate "-12^2" = Return (VInt 144).
Proof.
  pose proof (calculate_follows_table_precedence
    (Binary (Binary (Negate 0 (Literal 0 "3")) 0 OP_EXPONENTIATION (Literal 0 "2"))
            1 OP_PLUS
            (Binary (Literal 1 "2") 0 OP_TIMES
                    (Binary (Literal 0 "4") 0 OP_EXPONENTIATION (Literal 0 "2"))))
    0 "12" "2" eq_refl eq_refl eq_refl) as [_ [H1 H2]].
  split; [reflexivity|]. split; [exact H1|exact H2].
Defined.

(** C1, as the claim states it, fails: unary minus binds tighter than ['^'],
    so ["-2^2"] is [(-2)^2 = 4] and not [-(2^2) = -4]. *)
Lemma minus_two_squared_is_four :
  calculate "-2^2" = Return (VInt 4)
  /\ calculate "-2^2" <> Return (VInt (-4)).
Proof. split; [vm_compute; reflexivity|vm_compute; discriminate]. Qed.

(** C4, as the code has it.  For every well-formed expression, where a unary
    minus stands in front of a literal or a parenthesised expression,
    [calculate] gives the outcome of evaluating the expression by its
    structure: operands left to right, ['+' '-' '*' '/'] grouping to the left
    and ['^'] to the right.  When no division and no negative exponent occurs
    that outcome is the integer value of the expression. *)
Theorem calculate_value_of_well_formed (e : expression) (n : nat) :
  well_formed 0 e = true ->
  calculate (text e ++ blanks n) = eval e
  /\ forall z, integer_value e = Some z ->
       calculate (text e ++ blanks n) = Return (VInt z).
Proof.
  intros Hwf. split.
  - apply calculate_text, Hwf.
  - intros z Hz. rewrite (calculate_text e n Hwf).
    eapply eval_integer_value; eauto.
Qed.

Lemma calculate_value_of_well_formed_witness :
  (calculate "2-3-4" = Return (VInt (-5))
   /\ calculate "2^3^2" = Return (VInt 512))
  /\ calculate "(1+(4+5+2)-3)+(6+8)" = Return (VInt 23).
Proof.
  split; [split|].
  - exact (proj2 (calculate_value_of_well_formed
      (Binary (Binary (Literal 0 "2") 0 OP_MINUS (Literal 0 "3")) 0 OP_MINUS
              (Literal 0 "4")) 0 eq_refl) (-5) eq_refl).
  - exact (proj2 (calculate_value_of_well_formed
      (Binary (Literal 0 "2") 0 OP_EXPONENTIATION
              (Binary (Literal 0 "3") 0 OP_EXPONENTIATION (Literal 0 "2")))
      0 eq_refl) 512 eq_refl).
  - exact (proj2 (calculate_value_of_well_formed
      (Binary
         (Group 0
            (Binary
               (Binary (Literal 0 "1") 0 OP_PLUS
                  (Group 0
                     (Binary (Binary (Literal 0 "4") 0 OP_PLUS (Literal 0 "5"))
                             0 OP_PLUS (Literal 0 "2")) 0))
               0 OP_MINUS (Literal 0 "3")) 0)
         0 OP_PLUS
         (Group 0 (Binary (Literal 0 "6") 0 OP_PLUS (Literal 0 "8")) 0))
      0 eq_refl) 23 eq_refl).
Defined.

(** C4, as the claim states it, fails.  A minus sign in front of a minus
    sign is read as a second unary minus that, left-associative at the same
    rank, reduces the first one on an empty operand stack: ["--2"] raises.
    And a unary minus takes the base of a power with it: ["2*-3^2"] is
    [2 * (-3)^2 = 18], where the convention of the specification,
    exponentiation above unary minus, gives [2 * -(3^2) = -18]. *)
Lemma unary_minus_against_convention :
  calculate "--2" = Raise IndexError
  /\ calculate "2*-3^2" = Return (VInt 18).
Proof. split; vm_compute; reflexivity. Qed.

(** ** Mismatched parentheses *)

Lemma float_of_int_no_ValueError (n : Z) (arg : string) :
  float_of_int n <> Raise (ValueError arg).
Proof.
  unfold float_of_int. destruct (binary_normalize prec64 emax64 n 0 false);
    discriminate.
Qed.

Lemma to_float_no_ValueError (v : number) (arg : string) :
  to_float v <> Raise (ValueError arg).
Proof. destruct v; [apply float_of_int_no_ValueError|discriminate]. Qed.

Lemma float_binop_no_ValueError f (a b : number) (arg : string) :
  float_binop f a b <> Raise (ValueError arg).
Proof.
  unfold float_binop.
  pose proof (to_float_no_ValueError a arg).
  pose proof (to_float_no_ValueError b arg).
  destruct (to_float a); cbn [bind]; try congruence.
  destruct (to_float b); cbn [bind]; congruence.
Qed.

Lemma int_true_divide_no_ValueError (a b : Z) (arg : string) :
  int_true_divide a b <> Raise (ValueError arg).
Proof.
  unfold int_true_divide. destruct a, b; try discriminate;
    match goal with |- context [SFdiv ?p ?e ?x ?y] => destruct (SFdiv p e x y) end;
    discriminate.
Qed.

Lemma call_no_ValueError (f : Lambda) (a b : number) (arg : string) :
  call f a b <> Raise (ValueError arg).
Proof.
  destruct f; cbn [call].
  - destruct a, b; cbn [py_add]; try discriminate; apply float_binop_no_ValueError.
  - destruct a, b; cbn [py_sub]; try discriminate; apply float_binop_no_ValueError.
  - destruct a, b; cbn [py_mul]; try discriminate; apply float_binop_no_ValueError.
  - destruct a as [x|x], b as [y|y]; cbn [py_truediv];
      try apply int_true_divide_no_ValueError;
      match goal with
      | |- bind (to_float ?u) _ <> _ =>
          pose proof (to_float_no_ValueError u arg);
          destruct (to_float u); cbn [bind]; try congruence
      end;
      match goal with
      | |- bind (to_float ?u) _ <> _ =>
          pose proof (to_float_no_ValueError u arg);
          destruct (to_float u); cbn [bind]; try congruence
      end;
      match goal with
      | |- (if ?c then _ else _) <> _ => destruct c; discriminate
      end.
  - destruct a, b; cbn [py_pow]; try discriminate.
    destruct (0 <=? n0); discriminate.
  - destruct b; cbn [py_sub]; try discriminate; apply float_binop_no_ValueError.
Qed.

Lemma append_no_ValueError (stack : OutputStack) (v : pushed) (arg : string) :
  OutputStack_append stack v <> Raise (ValueError arg).
Proof.
  destruct v as [n|op]; cbn [OutputStack_append]; [discriminate|].
  destruct (Operator_eqb op OP_UNARY_MINUS).
  - destruct stack as [|r rest]; [discriminate|].
    destruct (calc op) as [f|]; [|discriminate].
    pose proof (call_no_ValueError f (VInt 0) r arg).
    destruct (call f (VInt 0) r); cbn [bind]; congruence.
  - destruct stack as [|r [|l rest]]; try discriminate.
    destruct (calc op) as [f|]; [|discriminate].
    pose proof (call_no_ValueError f l r arg).
    destruct (call f l r); cbn [bind]; congruence.
Qed.

(** The loop of line 192 leaves a left parenthesis on top whenever it ends
    without raising, and never raises a [ValueError]. *)
Lemma pop_to_lparen_spec (ops : list Operator) :
  forall out,
    match pop_to_lparen ops out with
    | Return (_, top :: _) => Operator_eqb top OP_LPAREN = true
    | Return (_, []) => False
    | Raise (ValueError _) => False
    | _ => True
    end.
Proof.
  induction ops as [|top rest IH]; intros out; cbn [pop_to_lparen]; [exact I|].
  destruct (Operator_eqb top OP_LPAREN) eqn:E; cbn [negb]; [exact E|].
  pose proof (append_no_ValueError out (POp top)) as Hv.
  destruct (OutputStack_append out (POp top)) as [out'|x|]; cbn [bind];
    [apply IH| |exact I].
  destruct x; try exact I. exfalso. eapply Hv. reflexivity.
Qed.

Lemma pop_to_lparen_unmatched (ops : list Operator) :
  existsb (fun op => Operator_eqb op OP_LPAREN) ops = false ->
  forall out s, pop_to_lparen ops out <> Return s.
Proof.
  induction ops as [|top rest IH]; intros Hno out s; cbn [pop_to_lparen];
    [discriminate|].
  cbn [existsb] in Hno. apply orb_false_iff in Hno as [Htop Hrest].
  rewrite Htop. cbn [negb].
  destruct (OutputStack_append out (POp top)) as [out'|x|]; cbn [bind];
    [apply IH, Hrest|discriminate|discriminate].
Qed.

(** C2 at its failing input.  A right parenthesis that meets a non-empty
    operator stack without a left parenthesis empties the stack and then
    reads the top of the empty list: ["1+2)"] ends in an [IndexError], not in
    the [ValueError] "mismatched parentheses".  The sibling paths do raise
    it: an empty stack at the right parenthesis (line 187) and a left
    parenthesis left over at the end (line 206).  The test of line 195 can
    never fire, and a right parenthesis that finds operators but no left
    parenthesis on the stack never gets past the loop of line 192. *)
Theorem unmatched_rparen_raises_IndexError :
  calculate "1+2)" = Raise IndexError
  /\ calculate ")" = Raise mismatched
  /\ calculate "(1+2" = Raise mismatched
  /\ (forall v out top ops,
        handle (mkToken OP_RPAREN v) (out, (top :: ops)%list) <> Raise mismatched)
  /\ (forall v out top ops st,
        existsb (fun op => Operator_eqb op OP_LPAREN) (top :: ops) = false ->
        handle (mkToken OP_RPAREN v) (out, (top :: ops)%list) <> Return st).
Proof.
  split; [vm_compute; reflexivity|].
  split; [vm_compute; reflexivity|].
  split; [vm_compute; reflexivity|].
  split.
  2:{ intros v out top ops st Hno. rewrite handle_rparen.
      pose proof (pop_to_lparen_unmatched (top :: ops) Hno out) as H.
      destruct (pop_to_lparen (top :: ops) out) as [s'|x|]; cbn [bind];
        [contradiction (H s' eq_refl)|discriminate|discriminate]. }
  intros v out top ops. rewrite handle_rparen.
  pose proof (pop_to_lparen_spec (top :: ops) out) as H.
  destruct (pop_to_lparen (top :: ops) out) as [[out' ops']|x|]; cbn [bind snd fst].
  - destruct ops' as [|top' rest]; [contradiction|].
    rewrite H. cbn [negb]. discriminate.
  - destruct x; try discriminate. contradiction.
  - discriminate.
Qed.

(** ** More than one operand left *)

(** C3, as the code has it.  When the token loop and the draining of the
    operator stack leave more than one value on the operand stack,
    [calculate] returns the topmost of them and signals nothing. *)
Theorem calculate_returns_top_of_stack (s : string) (stacks : Stacks)
    (output_stack : OutputStack) :
  for_each handle (__iter__ (Tokenizer_init s)) (OutputStack_init, @nil Operator)
    = Return stacks ->
  drain (snd stacks) (fst stacks) = Return output_stack ->
  (1 < length output_stack)%nat ->
  exists top rest,
    output_stack = (top :: rest)%list /\ calculate s = Return top.
Proof.
  intros Hloop Hdrain Hlen. unfold calculate. cbv zeta.
  rewrite Hloop. cbn [bind]. rewrite Hdrain. cbn [bind].
  destruct output_stack as [|top rest]; [simpl in Hlen; lia|].
  exists top, rest. split; reflexivity.
Qed.

Lemma calculate_returns_top_of_stack_witness :
  exists top rest,
    [VInt 3; VInt 2] = (top :: rest)%list /\ calculate "2 3" = Return top.
Proof.
  apply (calculate_returns_top_of_stack "2 3" ([VInt 3; VInt 2], [])).
  - vm_compute. reflexivity.
  - vm_compute. reflexivity.
  - simpl. lia.
Defined.

(** C3, as the claim states it, fails: ["2 3"] leaves two operands and
    [calculate] returns the last one. *)
Lemma two_operands_return_the_last : calculate "2 3" = Return (VInt 3).
Proof. vm_compute. reflexivity. Qed.

(** ** Unary and binary minus *)

Lemma Lambda_eqb_eq (f g : Lambda) : Lambda_eqb f g = true <-> f = g.
Proof. destruct f, g; simpl; split; intros H; congruence. Qed.

Lemma Operator_eqb_eq (a b : Operator) : Operator_eqb a b = true <-> a = b.
Proof.
  destruct a as [s1 l1 p1 c1], b as [s2 l2 p2 c2]. unfold Operator_eqb.
  cbn [symbol left_assoc precedence calc]. split.
  - intros H. apply andb_true_iff in H as [H Hc].
    apply andb_true_iff in H as [H Hp]. apply andb_true_iff in H as [Hs Hl].
    apply Ascii.eqb_eq in Hs. apply Bool.eqb_prop in Hl. apply Nat.eqb_eq in Hp.
    subst. f_equal. destruct c1 as [f|], c2 as [g|]; simpl in Hc;
      try discriminate; [|reflexivity].
    apply Lambda_eqb_eq in Hc. congruence.
  - intros H. inversion H; subst.
    rewrite Ascii.eqb_refl, Bool.eqb_reflx, Nat.eqb_refl. cbn [andb].
    destruct c2 as [g|]; [|reflexivity]. apply Lambda_eqb_eq. reflexivity.
Qed.

Lemma unary_position_spec (prev : option Token) :
  unary_position prev = true <-> operand_expected prev.
Proof.
  unfold unary_position, operand_expected, Operator_in. destruct prev as [p|].
  - cbn [existsb]. rewrite orb_false_r, negb_true_iff, orb_false_iff. split.
    + intros [H1 H2]. right. exists p. split; [reflexivity|].
      split; intros E; apply Operator_eqb_eq in E; congruence.
    + intros [H|[q [Hq [H1 H2]]]]; [discriminate|]. inversion Hq; subst q.
      split; apply not_true_is_false; intros E; apply Operator_eqb_eq in E;
        contradiction.
  - split; auto.
Qed.

(** C5.  When [__next__] reads ['-'] with no digit run pending, the token it
    returns is the unary minus exactly when no token has been emitted or the
    previous token is neither a NUMBER nor a RPAREN, and the binary minus
    exactly otherwise.  With a digit run pending the call returns the NUMBER
    and stays on the ['-'], which the following call therefore reads after a
    NUMBER.  Hence ["1-(-2)"] is 3 and ["3*-2"] is -6. *)
Theorem minus_sign_classification (e : string) (i : nat) (prev : option Token)
    (rest : string) :
  string_drop i e = String "-" rest ->
  let at_minus (ns : string) (p : option Token) :=
    mkTokenizer e (Some (mkCursor i ns p)) in
  let after (tok : Token) :=
    mkTokenizer e (Some (mkCursor (S i) "" (Some tok))) in
  (operand_expected prev <->
     __next__ (at_minus "" prev)
     = (Return (mkToken OP_UNARY_MINUS "-"), after (mkToken OP_UNARY_MINUS "-")))
  /\ (~ operand_expected prev <->
     __next__ (at_minus "" prev)
     = (Return (mkToken OP_MINUS "-"), after (mkToken OP_MINUS "-")))
  /\ (forall ns, ns <> "" ->
     __next__ (at_minus ns prev)
     = (Return (mkToken NUMBER ns), at_minus "" (Some (mkToken NUMBER ns)))
     /\ __next__ (at_minus "" (Some (mkToken NUMBER ns)))
        = (Return (mkToken OP_MINUS "-"), after (mkToken OP_MINUS "-")))
  /\ calculate "1-(-2)" = Return (VInt 3)
  /\ calculate "3*-2" = Return (VInt (-6)).
Proof.
  intros Hd at_minus after.
  assert (Hnext : forall p,
    __next__ (at_minus "" p)
    = if unary_position p
      then (Return (mkToken OP_UNARY_MINUS "-"), after (mkToken OP_UNARY_MINUS "-"))
      else (Return (mkToken OP_MINUS "-"), after (mkToken OP_MINUS "-"))).
  { intros p. unfold __next__, at_minus, after. cbn [cursor expr iter_index].
    rewrite Hd. cbn [scan number_str nonempty prev_token iter_index].
    change (isnumeric "-") with false. cbn [negb andb].
    change (Ascii.eqb "-" " ") with false.
    change (Ascii.eqb "-" (symbol OP_UNARY_MINUS)) with true. cbn [andb].
    destruct (unary_position p); reflexivity. }
  split; [|split; [|split; [|split]]].
  - rewrite Hnext, <- unary_position_spec.
    destruct (unary_position prev); split; intros H;
      try reflexivity; discriminate H.
  - rewrite Hnext, <- unary_position_spec.
    destruct (unary_position prev); split; intros H;
      try reflexivity; try discriminate.
    exfalso. apply H. reflexivity.
  - intros ns Hns. split.
    + unfold __next__, at_minus. cbn [cursor expr iter_index].
      rewrite Hd. cbn [scan number_str nonempty prev_token iter_index].
      change (isnumeric "-") with false. cbn [negb andb].
      destruct ns; [congruence|reflexivity].
    + rewrite Hnext. reflexivity.
  - vm_compute. reflexivity.
  - vm_compute. reflexivity.
Qed.

Lemma minus_sign_classification_witness :
  (operand_expected (Some (mkToken OP_LPAREN "(")) <->
     __next__ (mkTokenizer "1-(-2)" (Some (mkCursor 3 "" (Some (mkToken OP_LPAREN "(")))))
     = (Return (mkToken OP_UNARY_MINUS "-"),
        mkTokenizer "1-(-2)" (Some (mkCursor 4 "" (Some (mkToken OP_UNARY_MINUS "-"))))))
  /\ __next__ (mkTokenizer "1-(-2)" (Some (mkCursor 1 "1" None)))
     = (Return (mkToken NUMBER "1"),
        mkTokenizer "1-(-2)" (Some (mkCursor 1 "" (Some (mkToken NUMBER "1")))))
  /\ __next__ (mkTokenizer "1-(-2)" (Some (mkCursor 1 "" (Some (mkToken NUMBER "1")))))
     = (Return (mkToken OP_MINUS "-"),
        mkTokenizer "1-(-2)" (Some (mkCursor 2 "" (Some (mkToken OP_MINUS "-"))))).
Proof.
  split.
  - exact (proj1 (minus_sign_classification "1-(-2)" 3
                    (Some (mkToken OP_LPAREN "(")) "2)" eq_refl)).
  - apply (proj1 (proj2 (proj2 (minus_sign_classification "1-(-2)" 1 None
                                  "(-2)" eq_refl)))).
    discriminate.
Defined.

(** ** Characters the scanner rejects *)

Lemma lex_symbol_ext (c : ascii) (prev : option Token)
    (k1 k2 : option Token -> stream) :
  (forall p, k1 p = k2 p) -> lex_symbol c prev k1 = lex_symbol c prev k2.
Proof.
  intros H. unfold lex_symbol.
  repeat match goal with
  | |- (if ?b then _ else _) = (if ?b then _ else _) => destruct b
  | |- match ?x with Some _ => _ | None => _ end = _ => destruct x
  end; cbv zeta; rewrite ?H; reflexivity.
Qed.

(** What [lex_symbol] does with a character: it fails on an offending one,
    and otherwise emits at most one token and goes on. *)
Lemma lex_symbol_cases (c : ascii) (prev : option Token) :
  isnumeric c = false ->
  if offending c
  then forall k, lex_symbol c prev k = Fail (ValueError (string_of_char c))
  else exists toks prev',
         forall k, lex_symbol c prev k = emit_all toks (k prev').
Proof.
  intros Hn. unfold offending, lex_symbol. rewrite Hn. cbn [negb andb].
  cbn [existsb find ARITHMETIC_OPERATORS].
  destruct (Ascii.eqb c " ") eqn:E0; cbn [negb andb].
  { exists [], prev. reflexivity. }
  destruct (Ascii.eqb c (symbol OP_UNARY_MINUS) && unary_position prev) eqn:Eu.
  { apply andb_true_iff in Eu as [Eu _].
    change (symbol OP_UNARY_MINUS) with (symbol OP_MINUS) in Eu. rewrite Eu.
    rewrite orb_true_r. cbn [negb andb orb].
    eexists [_], _. intros k. reflexivity. }
  destruct (Ascii.eqb c (symbol OP_PLUS)); cbn [orb negb andb];
    [eexists [_], _; intros k; reflexivity|].
  destruct (Ascii.eqb c (symbol OP_MINUS)); cbn [orb negb andb];
    [eexists [_], _; intros k; reflexivity|].
  destruct (Ascii.eqb c (symbol OP_TIMES)); cbn [orb negb andb];
    [eexists [_], _; intros k; reflexivity|].
  destruct (Ascii.eqb c (symbol OP_DIVIDE)); cbn [orb negb andb];
    [eexists [_], _; intros k; reflexivity|].
  destruct (Ascii.eqb c (symbol OP_EXPONENTIATION)); cbn [orb negb andb];
    [eexists [_], _; intros k; reflexivity|].
  destruct (Ascii.eqb c (symbol OP_LPAREN)); cbn [orb negb andb];
    [eexists [_], _; intros k; reflexivity|].
  destruct (Ascii.eqb c (symbol OP_RPAREN)); cbn [orb negb andb];
    [eexists [_], _; intros k; reflexivity|].
  reflexivity.
Qed.

Lemma offending_not_numeric (c : ascii) : offending c = true -> isnumeric c = false.
Proof.
  unfold offending. destruct (isnumeric c); [discriminate|reflexivity].
Qed.

(** The tokens of a text of accepted characters do not depend on what
    follows it, up to the state in which the scanner leaves it. *)
Lemma lex_accepted_prefix (pre : string) :
  forall ns prev,
    string_forallb accepted pre = true ->
    exists toks ns' prev',
      forall rest, lex (pre ++ rest) ns prev = emit_all toks (lex rest ns' prev').
Proof.
  induction pre as [|c pre IH]; intros ns prev Hacc.
  - exists [], ns, prev. reflexivity.
  - simpl in Hacc. apply andb_true_iff in Hacc as [Hc Hacc].
    unfold accepted in Hc. apply negb_true_iff in Hc.
    cbn [String.append lex]. destruct (isnumeric c) eqn:En.
    + apply IH, Hacc.
    + pose proof (lex_symbol_cases c) as Hcases. rewrite Hc in Hcases.
      destruct (nonempty ns).
      * destruct (Hcases (Some (mkToken NUMBER ns)) En) as [toks [p Hk]].
        destruct (IH "" p Hacc) as [toks' [ns' [prev' H]]].
        exists (mkToken NUMBER ns :: toks ++ toks')%list, ns', prev'.
        intros rest. rewrite Hk, H. cbn [emit_all app].
        rewrite emit_all_app. reflexivity.
      * destruct (Hcases prev En) as [toks [p Hk]].
        destruct (IH "" p Hacc) as [toks' [ns' [prev' H]]].
        exists (toks ++ toks')%list, ns', prev'.
        intros rest. rewrite Hk, H, emit_all_app. reflexivity.
Qed.

Lemma run_emit_all_Fail {S : Type} (body : Token -> S -> outcome S)
    (toks : list Token) (x : exn) :
  forall st,
    run body (emit_all toks (Fail x)) st
    = (_ <- run body (emit_all toks Stop) st ;; Raise x).
Proof.
  induction toks as [|tok toks IH]; intros st; cbn [emit_all run bind];
    [reflexivity|].
  rewrite bind_assoc. apply bind_ext. intros st'. apply IH.
Qed.

Lemma lex_offending (pre : string) (c : ascii) (post : string) :
  offending c = true -> string_forallb accepted pre = true ->
  exists toks,
    lex (pre ++ String c post) "" None
    = emit_all toks (Fail (ValueError (string_of_char c))).
Proof.
  intros Hc Hpre.
  destruct (lex_accepted_prefix pre "" None Hpre) as [toks [ns [prev H]]].
  pose proof (offending_not_numeric c Hc) as Hn.
  pose proof (lex_symbol_cases c) as Hcases. rewrite Hc in Hcases.
  destruct (nonempty ns) eqn:Ens.
  - exists (toks ++ [mkToken NUMBER ns])%list.
    rewrite H, emit_all_app. cbn [lex emit_all]. rewrite Hn, Ens.
    rewrite (Hcases _ Hn). reflexivity.
  - exists toks. rewrite H. cbn [lex]. rewrite Hn, Ens.
    rewrite (Hcases _ Hn). reflexivity.
Qed.

Lemma bind_Raise_not_Return {A B : Type} (m : outcome A) (x : exn) (v : B) :
  (_ <- m ;; Raise x) <> Return v.
Proof. destruct m; discriminate. Qed.

(** C6, as the code has it.  Let [c] be the first character of the input
    that is not numeric, not the blank, not an operator symbol and not a
    parenthesis.  The iterator emits the tokens of the text in front of [c]
    and then raises a [ValueError] whose only argument is [c].  [calculate]
    handles those tokens and, unless one of them already made it raise,
    leaves with that [ValueError] at once; it never returns a value. *)
Theorem offending_character_raises (pre : string) (c : ascii) (post : string) :
  offending c = true -> string_forallb accepted pre = true ->
  exists toks,
    tokens (__iter__ (Tokenizer_init (pre ++ String c post)))
    = emit_all toks (Fail (ValueError (string_of_char c)))
    /\ calculate (pre ++ String c post)
       = (_ <- run handle (emit_all toks Stop) (OutputStack_init, @nil Operator) ;;
          Raise (ValueError (string_of_char c)))
    /\ forall v, calculate (pre ++ String c post) <> Return v.
Proof.
  intros Hc Hpre. destruct (lex_offending pre c post Hc Hpre) as [toks H].
  exists toks.
  assert (Hcalc : calculate (pre ++ String c post)
    = (_ <- run handle (emit_all toks Stop) (OutputStack_init, @nil Operator) ;;
       Raise (ValueError (string_of_char c)))).
  { rewrite calculate_lex, H. unfold OutputStack_init.
    rewrite run_emit_all_Fail, bind_assoc. reflexivity. }
  split; [|split].
  - rewrite tokens_iter. exact H.
  - exact Hcalc.
  - intros v. rewrite Hcalc. apply bind_Raise_not_Return.
Qed.

Lemma offending_character_raises_witness :
  exists toks,
    tokens (__iter__ (Tokenizer_init ("12 * (3 " ++ String "x" " + 4)")))
    = emit_all toks (Fail (ValueError "x"))
    /\ calculate ("12 * (3 " ++ String "x" " + 4)")
       = (_ <- run handle (emit_all toks Stop) (OutputStack_init, @nil Operator) ;;
          Raise (ValueError "x"))
    /\ forall v, calculate ("12 * (3 " ++ String "x" " + 4)") <> Return v.
Proof.
  exact (offending_character_raises "12 * (3 " "x" " + 4)" eq_refl eq_refl).
Defined.

(** C6, as the claim states it, fails: the exception carries the character
    and nothing else, so the same exception is raised for an offending
    character at index 0 and at index 2. *)
Lemma offending_character_position_is_lost :
  calculate "a" = Raise (ValueError "a")
  /\ calculate "1+a" = Raise (ValueError "a")
  /\ tokens (__iter__ (Tokenizer_init "1+a"))
     = Emit (mkToken NUMBER "1") (Emit (mkToken OP_PLUS "+") (Fail (ValueError "a"))).
Proof.
  split; [vm_compute; reflexivity|].
  split; [vm_compute; reflexivity|].
  rewrite tokens_iter. vm_compute. reflexivity.
Qed.

(** ** Restarting an iterator *)

Lemma string_drop_all (n : nat) (s : string) :
  (String.length s <= n)%nat -> string_drop n s = "".
Proof.
  revert s; induction n as [|n IH]; intros [|c s] H; simpl in *;
    try reflexivity; [lia|apply IH; lia].
Qed.

Lemma scan_StopIteration (unread : string) :
  forall cur cur',
    scan unread cur = (Raise StopIteration, cur') ->
    iter_index cur' = (iter_index cur + String.length unread)%nat
    /\ number_str cur' = "".
Proof.
  induction unread as [|c rest IH]; intros cur cur' H; cbn [scan] in H.
  - destruct (nonempty (number_str cur)) eqn:E; inversion H; subst.
    split; [cbn [String.length]; lia|apply nonempty_false, E].
  - destruct (negb (isnumeric c) && nonempty (number_str cur)); [discriminate|].
    destruct (isnumeric c).
    { apply IH in H. cbn [iter_index String.length] in *. split; [lia|tauto]. }
    destruct (Ascii.eqb c " ").
    { apply IH in H. cbn [iter_index String.length] in *. split; [lia|tauto]. }
    destruct (Ascii.eqb c (symbol OP_UNARY_MINUS) && unary_position (prev_token cur));
      [discriminate|].
    destruct (find _ ARITHMETIC_OPERATORS); [discriminate|].
    destruct (Ascii.eqb c (symbol OP_LPAREN)); [discriminate|].
    destruct (Ascii.eqb c (symbol OP_RPAREN)); discriminate.
Qed.

(** Without [__iter__], an exhausted iterator stays exhausted. *)
Lemma StopIteration_again (it it' : Tokenizer) :
  __next__ it = (Raise StopIteration, it') ->
  __next__ it' = (Raise StopIteration, it').
Proof.
  unfold __next__. destruct (cursor it) as [cur|] eqn:Ec; [|discriminate].
  destruct (scan _ cur) as [r cur'] eqn:E. intros H. inversion H; subst.
  apply scan_StopIteration in E as [Hi Hn]. rewrite string_drop_length in Hi.
  cbn [cursor expr]. rewrite string_drop_all by lia.
  destruct cur' as [i ns p]. cbn [number_str] in Hn. subst ns. reflexivity.
Qed.

(** C7, as the code has it.  [__iter__] sets the cursor, the digit run and
    the previous token anew.  So an instance whose token sequence is
    exhausted produces, after [__iter__], the very sequence a new instance
    over the same text produces, for every loop over it; left alone, it keeps
    raising [StopIteration]. *)
Theorem iter_restarts_an_exhausted_tokenizer (it spent : Tokenizer) :
  __next__ it = (Raise StopIteration, spent) ->
  __next__ spent = (Raise StopIteration, spent)
  /\ __iter__ spent = __iter__ (Tokenizer_init (expr spent))
  /\ tokens (__iter__ spent) = tokens (__iter__ (Tokenizer_init (expr spent)))
  /\ tokens (__iter__ spent) = lex (expr spent) "" None
  /\ forall (S : Type) (body : Token -> S -> outcome S) (st : S),
       for_each body (__iter__ spent) st
       = for_each body (__iter__ (Tokenizer_init (expr spent))) st.
Proof.
  intros H. split; [eapply StopIteration_again; eauto|].
  split; [reflexivity|]. split; [reflexivity|].
  split; [apply tokens_iter|]. intros. reflexivity.
Qed.

Lemma iter_restarts_an_exhausted_tokenizer_witness :
  __next__ (after_calls 4 (__iter__ (Tokenizer_init "1+1")))
  = (Raise StopIteration, after_calls 4 (__iter__ (Tokenizer_init "1+1")))
  /\ tokens (__iter__ (after_calls 4 (__iter__ (Tokenizer_init "1+1"))))
     = lex "1+1" "" None.
Proof.
  pose proof (iter_restarts_an_exhausted_tokenizer
                (after_calls 3 (__iter__ (Tokenizer_init "1+1")))
                (after_calls 4 (__iter__ (Tokenizer_init "1+1")))
                eq_refl) as [H1 [_ [_ [H2 _]]]].
  split; [exact H1|exact H2].
Defined.

(** C7, as the claim states it, fails: the instance over ["1+1"], once
    exhausted, yields its three tokens again after [__iter__]. *)
Lemma exhausted_tokenizer_yields_again :
  fst (__next__ (after_calls 4 (__iter__ (Tokenizer_init "1+1"))))
  = Raise StopIteration
  /\ tokens (__iter__ (after_calls 4 (__iter__ (Tokenizer_init "1+1"))))
     = Emit (mkToken NUMBER "1")
         (Emit (mkToken OP_PLUS "+") (Emit (mkToken NUMBER "1") Stop))
  /\ tokens (__iter__ (Tokenizer_init "1+1"))
     = Emit (mkToken NUMBER "1")
         (Emit (mkToken OP_PLUS "+") (Emit (mkToken NUMBER "1") Stop)).
Proof.
  split; [vm_compute; reflexivity|].
  split; rewrite tokens_iter; vm_compute; reflexivity.
Qed.

(** ** Blanks *)

Lemma nonempty_app_char (ns : string) (c : ascii) :
  nonempty (ns ++ string_of_char c) = true.
Proof. destruct ns; reflexivity. Qed.

Lemma lex_blank_inserted (s1 s2 : string) :
  forall ns prev,
    in_run ns s1 && starts_numeric s2 = false ->
    lex (s1 ++ String " " s2) ns prev = lex (s1 ++ s2) ns prev.
Proof.
  induction s1 as [|c s1 IH]; intros ns prev H.
  - cbn [String.append in_run] in *. cbn [lex].
    change (isnumeric " ") with false. cbv iota.
    unfold lex_symbol. change (Ascii.eqb " " " ") with true. cbv iota.
    destruct (nonempty ns) eqn:Ens; [|apply nonempty_false in Ens; subst; reflexivity].
    cbn [andb] in H. rewrite (lex_pending_number ns s2 prev Ens H). reflexivity.
  - cbn [String.append lex].
    assert (Hrun : forall ns', nonempty ns' = isnumeric c ->
              in_run ns' s1 && starts_numeric s2 = false).
    { intros ns' Hns'. cbn [in_run ends_numeric] in H.
      destruct s1 as [|d s1]; cbn [in_run]; [rewrite Hns'|]; exact H. }
    destruct (isnumeric c) eqn:En.
    + apply IH, Hrun, nonempty_app_char.
    + assert (Hk : forall p,
         lex (s1 ++ String " " s2) "" p = lex (s1 ++ s2) "" p)
        by (intros p; apply IH, Hrun; reflexivity).
      destruct (nonempty ns); [f_equal|]; apply lex_symbol_ext, Hk.
Qed.

Lemma calculate_blank_inserted (s1 s2 : string) :
  ends_numeric s1 && starts_numeric s2 = false ->
  calculate (s1 ++ String " " s2) = calculate (s1 ++ s2).
Proof.
  intros H. rewrite !calculate_lex. rewrite lex_blank_inserted; [reflexivity|].
  destruct s1; [reflexivity|exact H].
Qed.

(** C9, as the code has it.  The scanner skips the space character (line 70)
    and no other whitespace.  Inserting space characters into an expression
    text or removing them from it, anywhere except between two numeric
    characters, does not change what [calculate] returns or raises. *)
Theorem calculate_ignores_blanks (e e' : string) :
  respaced e e' -> calculate e = calculate e'.
Proof.
  induction 1 as [s|s1 s2 H|s1 s2 H|s t u _ IH1 _ IH2].
  - reflexivity.
  - symmetry. apply calculate_blank_inserted, H.
  - apply calculate_blank_inserted, H.
  - congruence.
Qed.

Lemma calculate_ignores_blanks_witness :
  calculate " 2-1 + 2 " = calculate "2-1+2".
Proof.
  apply calculate_ignores_blanks.
  apply (respaced_then _ "2-1 + 2 "); [exact (respaced_remove "" "2-1 + 2 " eq_refl)|].
  apply (respaced_then _ "2-1 + 2"); [exact (respaced_remove "2-1 + 2" "" eq_refl)|].
  apply (respaced_then _ "2-1+ 2"); [exact (respaced_remove "2-1" "+ 2" eq_refl)|].
  exact (respaced_remove "2-1+" "2" eq_refl).
Defined.

(** C9 as the specification states it fails for whitespace other than the
    space character: a tab is whitespace, and with a tab in front of the
    ['+'] the text ["1+1"] no longer evaluates to 2 but raises the
    [ValueError] of line 101 with the tab as its argument. *)
Lemma tab_is_not_skipped :
  isspace "009" = true
  /\ calculate "1+1" = Return (VInt 2)
  /\ calculate (String "1" (String "009" "+1"))
     = Raise (ValueError (String "009" ""))
  /\ calculate (String "1" (String "009" "+1")) <> calculate "1+1".
Proof.
  repeat split; try (vm_compute; reflexivity). vm_compute. discriminate.
Qed.

(** ** Empty and blank input *)







(** ** Division *)

Example one_and_a_half_exact : 2 * 6755399441055744 = 3 * 2 ^ 52.
Proof. reflexivity. Qed.

Lemma int_true_divide_float (a b : Z) :
  b <> 0 ->
  (exists q, int_true_divide a b = Return (VFloat q))
  \/ int_true_divide a b = Raise OverflowError.
Proof.
  intros Hb. unfold int_true_divide.
  destruct a, b; try congruence; try (left; eexists; reflexivity);
    match goal with |- context [SFdiv ?p ?e ?x ?y] => destruct (SFdiv p e x y) end;
    try (left; eexists; reflexivity); right; reflexivity.
Qed.

(** C8, as the code has it.  For literals [a] and [b] with [b] not zero the
    text [a/b] evaluates to Python's true division of the two integers: a
    float, the binary64 quotient, never an integer, so ["3/2"] is 1.5; when
    the quotient is too large for a float the division raises
    [OverflowError]. *)
Theorem division_is_true_division (a b : string) :
  decimal a = true -> decimal b = true -> literal_value b <> 0 ->
  calculate (a ++ "/" ++ b) = int_true_divide (literal_value a) (literal_value b)
  /\ ((exists q, calculate (a ++ "/" ++ b) = Return (VFloat q))
      \/ calculate (a ++ "/" ++ b) = Raise OverflowError)
  /\ forall n, calculate (a ++ "/" ++ b) <> Return (VInt n).
Proof.
  intros Ha Hb Hnz.
  pose (t := Binary (Literal 0 a) 0 OP_DIVIDE (Literal 0 b)).
  assert (Ht : well_formed 0 t = true).
  { cbn. unfold decimal in Ha, Hb. rewrite Ha, Hb. reflexivity. }
  pose proof (calculate_text t 0 Ht) as H.
  cbn [text t blanks String.append symbol OP_DIVIDE] in H.
  rewrite string_app_nil_r in H. unfold t in H. cbn [eval] in H.
  rewrite (int_decimal a Ha), (int_decimal b Hb) in H.
  cbn [bind apply_operator calc OP_DIVIDE call py_truediv] in H.
  cbn [String.append]. rewrite H.
  split; [reflexivity|].
  destruct (int_true_divide_float (literal_value a) (literal_value b) Hnz)
    as [[q Hq]|Ho]; [rewrite Hq|rewrite Ho]; split.
  - left. exists q. reflexivity.
  - discriminate.
  - right. reflexivity.
  - discriminate.
Qed.

Lemma division_is_true_division_witness :
  calculate "3/2" = Return (VFloat one_and_a_half)
  /\ forall n, calculate "3/2" <> Return (VInt n).
Proof.
  pose proof (division_is_true_division "3" "2" eq_refl eq_refl) as H.
  destruct H as [H1 [_ H3]]; [vm_compute; discriminate|].
  split; [exact H1|exact H3].
Defined.

(** C8, as the claim states it, fails: [10^400 / 1] has no float, and the
    division raises instead of yielding the quotient. *)
Lemma huge_quotient_overflows :
  calculate (String "1" (zeros 400) ++ "/1") = Raise OverflowError.
Proof. vm_compute. reflexivity. Qed.

(** ** The assertions of the main block *)

(** Lines 213-216 of the source, and the precedence example of the
    specification. *)
Example main_assertions :
  calculate "1 + 1" = Return (VInt 2)
  /\ calculate " 2-1 + 2 " = Return (VInt 3)
  /\ calculate "(1+(4+5+2)-3)+(6+8)" = Return (VInt 23)
  /\ calculate "1-(-2)" = Return (VInt 3)
  /\ calculate "2+3*4" = Return (VInt 14).
Proof. repeat split; vm_compute; reflexivity. Qed.


(** * Further properties of the tokenizer *)
Ltac each_symbol_operator H :=
  destruct H as [<-|[<-|[<-|[<-|[<-|[<-|[<-|[<-|[]]]]]]]]].

(** What [lex_symbol] does with a character that is not numeric. *)
Lemma lex_symbol_shape (c : ascii) (prev : option Token) :
  isnumeric c = false ->
  (c = " "%char /\ forall k, lex_symbol c prev k = k prev)
  \/ (exists op,
        In op symbol_operators /\ symbol op = c
        /\ Ascii.eqb c " " = false /\ offending c = false
        /\ (op = OP_UNARY_MINUS -> unary_position prev = true)
        /\ (op = OP_MINUS -> unary_position prev = false)
        /\ forall k,
             lex_symbol c prev k
             = Emit (operator_token op) (k (Some (operator_token op))))
  \/ (offending c = true
      /\ forall k, lex_symbol c prev k = Fail (ValueError (string_of_char c))).
Proof.
  intros Hn. unfold offending, lex_symbol. rewrite Hn. cbn [negb andb].
  cbn [existsb find ARITHMETIC_OPERATORS].
  destruct (Ascii.eqb c " ") eqn:E0; cbn [negb andb].
  { left. apply Ascii.eqb_eq in E0. split; [exact E0|reflexivity]. }
  destruct (Ascii.eqb c (symbol OP_UNARY_MINUS) && unary_position prev) eqn:Eu.
  { apply andb_true_iff in Eu as [Eu Hu].
    right; left. exists OP_UNARY_MINUS.
    apply Ascii.eqb_eq in Eu. subst c. cbn.
    repeat split; auto; try discriminate;
      try (unfold symbol_operators, operators; simpl; tauto). }
  assert (Hu : Ascii.eqb c (symbol OP_MINUS) = true -> unary_position prev = false).
  { intros H. change (symbol OP_UNARY_MINUS) with (symbol OP_MINUS) in Eu.
    rewrite H in Eu. exact Eu. }
  destruct (Ascii.eqb c (symbol OP_PLUS)) eqn:E1; cbn [orb negb andb].
  { right; left. exists OP_PLUS. apply Ascii.eqb_eq in E1. subst c. cbn.
    repeat split; auto; try discriminate;
      try (unfold symbol_operators, operators; simpl; tauto). }
  destruct (Ascii.eqb c (symbol OP_MINUS)) eqn:E2; cbn [orb negb andb].
  { right; left. exists OP_MINUS. specialize (Hu eq_refl).
    apply Ascii.eqb_eq in E2. subst c. cbn.
    repeat split; auto; try discriminate;
      try (unfold symbol_operators, operators; simpl; tauto). }
  destruct (Ascii.eqb c (symbol OP_TIMES)) eqn:E3; cbn [orb negb andb].
  { right; left. exists OP_TIMES. apply Ascii.eqb_eq in E3. subst c. cbn.
    repeat split; auto; try discriminate;
      try (unfold symbol_operators, operators; simpl; tauto). }
  destruct (Ascii.eqb c (symbol OP_DIVIDE)) eqn:E4; cbn [orb negb andb].
  { right; left. exists OP_DIVIDE. apply Ascii.eqb_eq in E4. subst c. cbn.
    repeat split; auto; try discriminate;
      try (unfold symbol_operators, operators; simpl; tauto). }
  destruct (Ascii.eqb c (symbol OP_EXPONENTIATION)) eqn:E5; cbn [orb negb andb].
  { right; left. exists OP_EXPONENTIATION. apply Ascii.eqb_eq in E5. subst c. cbn.
    repeat split; auto; try discriminate;
      try (unfold symbol_operators, operators; simpl; tauto). }
  destruct (Ascii.eqb c (symbol OP_LPAREN)) eqn:E6; cbn [orb negb andb].
  { right; left. exists OP_LPAREN. apply Ascii.eqb_eq in E6. subst c. cbn.
    repeat split; auto; try discriminate;
      try (unfold symbol_operators, operators; simpl; tauto). }
  destruct (Ascii.eqb c (symbol OP_RPAREN)) eqn:E7; cbn [orb negb andb].
  { right; left. exists OP_RPAREN. apply Ascii.eqb_eq in E7. subst c. cbn.
    repeat split; auto; try discriminate;
      try (unfold symbol_operators, operators; simpl; tauto). }
  right; right. split; reflexivity.
Qed.

(** Induction over the token sequence of a text, case by case as the scanner
    reads it: the end of the text, a numeric character, a pending digit run
    in front of another character, a blank, the symbol of an operator or a
    parenthesis, an offending character. *)
Lemma lex_cases (P : string -> string -> option Token -> stream -> Prop) :
  (forall ns prev,
     P "" ns prev (if nonempty ns then Emit (mkToken NUMBER ns) Stop else Stop)) ->
  (forall c rest ns prev,
     isnumeric c = true ->
     P rest (ns ++ string_of_char c) prev (lex rest (ns ++ string_of_char c) prev) ->
     P (String c rest) ns prev (lex rest (ns ++ string_of_char c) prev)) ->
  (forall c rest ns prev,
     isnumeric c = false -> nonempty ns = true ->
     P (String c rest) "" (Some (mkToken NUMBER ns))
       (lex (String c rest) "" (Some (mkToken NUMBER ns))) ->
     P (String c rest) ns prev
       (Emit (mkToken NUMBER ns) (lex (String c rest) "" (Some (mkToken NUMBER ns))))) ->
  (forall rest prev,
     P rest "" prev (lex rest "" prev) ->
     P (String " " rest) "" prev (lex rest "" prev)) ->
  (forall op rest prev,
     In op symbol_operators ->
     (op = OP_UNARY_MINUS -> unary_position prev = true) ->
     (op = OP_MINUS -> unary_position prev = false) ->
     P rest "" (Some (operator_token op)) (lex rest "" (Some (operator_token op))) ->
     P (String (symbol op) rest) "" prev
       (Emit (operator_token op) (lex rest "" (Some (operator_token op))))) ->
  (forall c rest prev,
     offending c = true ->
     P (String c rest) "" prev (Fail (ValueError (string_of_char c)))) ->
  forall unread ns prev, P unread ns prev (lex unread ns prev).
Proof.
  intros Hend Hnum Hflush Hblank Hop Hfail.
  induction unread as [|c rest IH]; intros ns prev; [apply Hend|].
  assert (Hsym : isnumeric c = false ->
            forall p, P (String c rest) "" p (lex (String c rest) "" p)).
  { intros Hn p. cbn [lex nonempty]. rewrite Hn.
    destruct (lex_symbol_shape c p Hn)
      as [[Hc Hk]|[[op [Hin [Hs [_ [_ [Hu [Hm Hk]]]]]]]|[Hc Hk]]]; rewrite Hk.
    - subst c. apply Hblank, IH.
    - subst c. apply Hop; auto.
    - apply Hfail, Hc. }
  cbn [lex]. destruct (isnumeric c) eqn:Hn.
  - apply Hnum; [exact Hn|apply IH].
  - destruct (nonempty ns) eqn:Hns.
    + pose proof (Hsym eq_refl (Some (mkToken NUMBER ns))) as H.
      pose proof (Hflush c rest ns prev Hn Hns H) as H'.
      cbn [lex nonempty] in H'. rewrite Hn in H'. exact H'.
    + apply nonempty_false in Hns. subst ns.
      pose proof (Hsym eq_refl prev) as H. cbn [lex nonempty] in H.
      rewrite Hn in H. exact H.
Qed.

(** ** The shape of the tokens *)

Lemma string_forallb_app (p : ascii -> bool) (a b : string) :
  string_forallb p (a ++ b) = string_forallb p a && string_forallb p b.
Proof.
  induction a as [|c a IH]; simpl; [reflexivity|].
  rewrite IH, andb_assoc. reflexivity.
Qed.

Lemma operator_token_shape (op : Operator) :
  In op symbol_operators -> token_shape (operator_token op) = true.
Proof. intros H. each_symbol_operator H; reflexivity. Qed.

Lemma lex_token_shape (unread ns : string) (prev : option Token) :
  string_forallb isnumeric ns = true ->
  Forall (fun tok => token_shape tok = true) (stream_tokens (lex unread ns prev)).
Proof.
  revert unread ns prev.
  apply (lex_cases (fun unread ns prev s =>
    string_forallb isnumeric ns = true ->
    Forall (fun tok => token_shape tok = true) (stream_tokens s))).
  - intros ns prev Hns. destruct (nonempty ns) eqn:E; cbn [stream_tokens];
      [|constructor].
    constructor; [|constructor]. unfold token_shape. cbn. rewrite E, Hns. reflexivity.
  - intros c rest ns prev Hc IH Hns. apply IH.
    rewrite string_forallb_app, Hns. simpl. rewrite Hc. reflexivity.
  - intros c rest ns prev Hc Hne IH Hns. cbn [stream_tokens].
    constructor; [|apply IH; reflexivity].
    unfold token_shape. cbn. rewrite Hne, Hns. reflexivity.
  - intros rest prev IH Hns. apply IH, Hns.
  - intros op rest prev Hin _ _ IH Hns. cbn [stream_tokens].
    constructor; [apply operator_token_shape, Hin|apply IH, Hns].
  - intros c rest prev Hc Hns. constructor.
Qed.

(** Every token the iterator of a text produces is a NUMBER with a non-empty
    run of numeric characters, or an operator or parenthesis of the table
    with its one-character symbol as value. *)
Theorem tokens_are_well_shaped (t : Tokenizer) :
  Forall (fun tok => token_shape tok = true) (stream_tokens (tokens (__iter__ t))).
Proof. rewrite tokens_iter. apply lex_token_shape. reflexivity. Qed.

(** ** The tokens spell the text without its blanks *)

Lemma isnumeric_not_blank (c : ascii) : isnumeric c = true -> Ascii.eqb c " " = false.
Proof.
  intros H. destruct (Ascii.eqb c " ") eqn:E; [|reflexivity].
  apply Ascii.eqb_eq in E. subst c. discriminate.
Qed.

Lemma lex_spelling (unread ns : string) (prev : option Token) :
  string_forallb accepted unread = true ->
  ends_with_Stop (lex unread ns prev) = true
  /\ spelling (stream_tokens (lex unread ns prev)) = ns ++ remove_blanks unread.
Proof.
  revert unread ns prev.
  apply (lex_cases (fun unread ns prev s =>
    string_forallb accepted unread = true ->
    ends_with_Stop s = true
    /\ spelling (stream_tokens s) = ns ++ remove_blanks unread)).
  - intros ns prev _. cbn [remove_blanks]. rewrite string_app_nil_r.
    destruct (nonempty ns) eqn:E; cbn; [rewrite string_app_nil_r; auto|].
    apply nonempty_false in E. subst. auto.
  - intros c rest ns prev Hc IH Hacc. simpl in Hacc.
    apply andb_true_iff in Hacc as [_ Hacc]. destruct (IH Hacc) as [H1 H2].
    split; [exact H1|]. rewrite H2. cbn [remove_blanks].
    rewrite (isnumeric_not_blank c Hc), string_app_assoc. reflexivity.
  - intros c rest ns prev Hc Hne IH Hacc. destruct (IH Hacc) as [H1 H2].
    cbn [ends_with_Stop stream_tokens spelling value]. split; [exact H1|].
    rewrite H2. reflexivity.
  - intros rest prev IH Hacc. simpl in Hacc. apply IH, Hacc.
  - intros op rest prev Hin _ _ IH Hacc. simpl in Hacc.
    apply andb_true_iff in Hacc as [_ Hacc]. destruct (IH Hacc) as [H1 H2].
    cbn [ends_with_Stop stream_tokens spelling]. split; [exact H1|].
    rewrite H2. each_symbol_operator Hin; reflexivity.
  - intros c rest prev Hc Hacc. simpl in Hacc. unfold accepted in Hacc.
    rewrite Hc in Hacc. discriminate.
Qed.

(** For a text without offending characters the iterator ends with the end
    of the input, and the values of its tokens, put together, are the text
    without its blanks: the scanner drops blanks and nothing else. *)
Theorem tokens_spell_the_text (s : string) :
  string_forallb accepted s = true ->
  ends_with_Stop (tokens (__iter__ (Tokenizer_init s))) = true
  /\ spelling (stream_tokens (tokens (__iter__ (Tokenizer_init s))))
     = remove_blanks s.
Proof.
  intros H. rewrite tokens_iter. exact (lex_spelling s "" None H).
Qed.

Lemma tokens_spell_the_text_witness :
  ends_with_Stop (tokens (__iter__ (Tokenizer_init " 12 *( 3- 45)"))) = true
  /\ spelling (stream_tokens (tokens (__iter__ (Tokenizer_init " 12 *( 3- 45)"))))
     = "12*(3-45)".
Proof. exact (tokens_spell_the_text " 12 *( 3- 45)" eq_refl). Defined.

(** ** The number of tokens *)

Lemma lex_token_count (unread ns : string) (prev : option Token) :
  (length (stream_tokens (lex unread ns prev))
   <= String.length unread + b2n (nonempty ns))%nat.
Proof.
  revert unread ns prev.
  apply (lex_cases (fun unread ns prev s =>
    (length (stream_tokens s) <= String.length unread + b2n (nonempty ns))%nat)).
  - intros ns prev. destruct (nonempty ns); simpl; lia.
  - intros c rest ns prev _ IH. rewrite nonempty_app_char in IH.
    cbn [String.length b2n] in *. lia.
  - intros c rest ns prev _ Hne IH. rewrite Hne.
    cbn [stream_tokens length String.length b2n nonempty] in *. lia.
  - intros rest prev IH. cbn [String.length b2n nonempty] in *. lia.
  - intros op rest prev _ _ _ IH.
    cbn [stream_tokens length String.length b2n nonempty] in *. lia.
  - intros c rest prev _. cbn [stream_tokens length]. lia.
Qed.

(** The iterator of a text produces at most as many tokens as the text has
    characters. *)
Theorem token_count_bounded (t : Tokenizer) :
  (length (stream_tokens (tokens (__iter__ t))) <= expr_len t)%nat.
Proof.
  rewrite tokens_iter. pose proof (lex_token_count (expr t) "" None) as H.
  unfold expr_len. cbn [nonempty b2n] in H. lia.
Qed.

(** ** The index of the iterator *)

Lemma scan_index (unread : string) :
  forall cur r cur',
    scan unread cur = (r, cur') ->
    (iter_index cur <= iter_index cur'
     /\ iter_index cur' <= iter_index cur + String.length unread)%nat.
Proof.
  induction unread as [|c rest IH]; intros cur r cur' H; cbn [scan] in H.
  - destruct (nonempty (number_str cur)); inversion H; subst;
      cbn [iter_index String.length]; lia.
  - destruct (negb (isnumeric c) && nonempty (number_str cur)).
    { inversion H; subst. cbn [iter_index String.length]. lia. }
    destruct (isnumeric c).
    { apply IH in H. cbn [iter_index String.length] in *. lia. }
    destruct (Ascii.eqb c " ").
    { apply IH in H. cbn [iter_index String.length] in *. lia. }
    destruct (Ascii.eqb c (symbol OP_UNARY_MINUS) && unary_position (prev_token cur));
      [|destruct (find _ ARITHMETIC_OPERATORS);
        [|destruct (Ascii.eqb c (symbol OP_LPAREN));
          [|destruct (Ascii.eqb c (symbol OP_RPAREN))]]];
      inversion H; subst; cbn [iter_index String.length]; lia.
Qed.

Lemma next_index (t : Tokenizer) (cur : Cursor) :
  cursor t = Some cur ->
  expr (snd (__next__ t)) = expr t
  /\ exists cur',
       cursor (snd (__next__ t)) = Some cur'
       /\ (iter_index cur <= iter_index cur')%nat
       /\ ((iter_index cur <= expr_len t)%nat -> (iter_index cur' <= expr_len t)%nat).
Proof.
  intros Hc. unfold __next__. rewrite Hc.
  destruct (scan _ cur) as [r cur'] eqn:E. cbn [snd expr cursor].
  split; [reflexivity|]. exists cur'. split; [reflexivity|].
  apply scan_index in E. rewrite string_drop_length in E. unfold expr_len. lia.
Qed.

Lemma after_calls_index (s : string) (n : nat) :
  expr (after_calls n (__iter__ (Tokenizer_init s))) = s
  /\ exists cur,
       cursor (after_calls n (__iter__ (Tokenizer_init s))) = Some cur
       /\ (iter_index cur <= String.length s)%nat.
Proof.
  induction n as [|n [He [cur [Hc Hle]]]].
  - split; [reflexivity|]. exists (mkCursor 0 "" None). split; [reflexivity|].
    cbn [iter_index]. lia.
  - unfold after_calls in *. rewrite Nat.iter_succ.
    destruct (next_index _ cur Hc) as [He' [cur' [Hc' [_ Hle']]]].
    split; [rewrite He'; exact He|]. exists cur'. split; [exact Hc'|].
    unfold expr_len in Hle'. rewrite He in Hle'. auto.
Qed.

(** However often [__next__] is called on the iterator of a text, and
    whatever the calls return or raise, the text stays the same and the index
    never moves back and never leaves the text. *)
Theorem iter_index_stays_in_range (s : string) (n : nat) :
  expr (after_calls (S n) (__iter__ (Tokenizer_init s))) = s
  /\ exists cur cur',
       cursor (after_calls n (__iter__ (Tokenizer_init s))) = Some cur
       /\ cursor (after_calls (S n) (__iter__ (Tokenizer_init s))) = Some cur'
       /\ (iter_index cur <= iter_index cur' <= String.length s)%nat.
Proof.
  destruct (after_calls_index s n) as [He [cur [Hc Hle]]].
  destruct (after_calls_index s (S n)) as [He' [cur' [Hc' Hle']]].
  split; [exact He'|]. exists cur, cur'. repeat split; auto.
  unfold after_calls in Hc'. rewrite Nat.iter_succ in Hc'.
  destruct (next_index _ cur Hc) as [_ [cur'' [Hc'' [Hmono _]]]].
  unfold after_calls in Hc''. rewrite Hc'' in Hc'. inversion Hc'; subst. exact Hmono.
Qed.

(** ** The tokens of an expression *)

(** For the text of a well-formed expression the iterator yields the tokens
    of the expression, one for each literal, operator and parenthesis in the
    order of the text, and then ends. *)
Theorem iterator_yields_the_tokens_of_an_expression (e : expression) (n : nat) :
  well_formed 0 e = true ->
  tokens (__iter__ (Tokenizer_init (text e ++ blanks n)))
  = emit_all (tokens_of e) Stop.
Proof.
  intros Hwf. rewrite tokens_iter. cbn [expr Tokenizer_init].
  rewrite (lex_text e 0 (blanks n) None Hwf eq_refl (starts_numeric_blanks n)).
  rewrite lex_blanks_only. reflexivity.
Qed.

Lemma iterator_yields_the_tokens_of_an_expression_witness :
  tokens (__iter__ (Tokenizer_init "- (12+3)^ 2 "))
  = emit_all [mkToken OP_UNARY_MINUS "-"; mkToken OP_LPAREN "(";
              mkToken NUMBER "12"; mkToken OP_PLUS "+"; mkToken NUMBER "3";
              mkToken OP_RPAREN ")"; mkToken OP_EXPONENTIATION "^";
              mkToken NUMBER "2"] Stop.
Proof.
  exact (iterator_yields_the_tokens_of_an_expression
           (Binary
              (Negate 0 (Group 1 (Binary (Literal 0 "12") 0 OP_PLUS (Literal 0 "3")) 0))
              0 OP_EXPONENTIATION (Literal 1 "2"))
           1 eq_refl).
Defined.

(** * Further properties of the operand stack *)

Lemma float_of_int_raises (n : Z) (e : exn) :
  float_of_int n = Raise e -> e = OverflowError.
Proof.
  unfold float_of_int. destruct (binary_normalize _ _ _ _ _); intros H;
    inversion H; reflexivity.
Qed.

Lemma to_float_raises (v : number) (e : exn) :
  to_float v = Raise e -> e = OverflowError.
Proof. destruct v; simpl; [apply float_of_int_raises|discriminate]. Qed.

Lemma float_binop_raises f (a b : number) (e : exn) :
  float_binop f a b = Raise e -> e = OverflowError.
Proof.
  unfold float_binop. destruct (to_float a) eqn:Ea; cbn [bind];
    [|intros H; inversion H; subst; eapply to_float_raises; eauto|discriminate].
  destruct (to_float b) eqn:Eb; cbn [bind];
    [discriminate|intros H; inversion H; subst; eapply to_float_raises; eauto
    |discriminate].
Qed.

Lemma int_true_divide_raises (a b : Z) (e : exn) :
  int_true_divide a b = Raise e -> e = ZeroDivisionError \/ e = OverflowError.
Proof.
  unfold int_true_divide. intros H.
  destruct a, b; try (inversion H; auto; fail);
    destruct (SFdiv _ _ _ _); inversion H; auto.
Qed.

Lemma py_truediv_raises (a b : number) (e : exn) :
  py_truediv a b = Raise e -> e = ZeroDivisionError \/ e = OverflowError.
Proof.
  assert (G : forall a b,
            (x <- to_float a ;; y <- to_float b ;;
             if float_is_zero y then Raise ZeroDivisionError
             else Return (VFloat (SFdiv prec64 emax64 x y))) = Raise e ->
            e = ZeroDivisionError \/ e = OverflowError).
  { intros a' b'. destruct (to_float a') eqn:Ea; cbn [bind];
      [|intros H; inversion H; subst; right; eapply to_float_raises; eauto
       |discriminate].
    destruct (to_float b') eqn:Eb; cbn [bind];
      [|intros H; inversion H; subst; right; eapply to_float_raises; eauto
       |discriminate].
    destruct (float_is_zero _); intros H; inversion H; auto. }
  destruct a, b; cbn [py_truediv]; try apply G. apply int_true_divide_raises.
Qed.

(** The exceptions of the arithmetic of the table. *)
Lemma call_raises (f : Lambda) (a b : number) (e : exn) :
  call f a b = Raise e -> e = ZeroDivisionError \/ e = OverflowError.
Proof.
  destruct f; cbn [call].
  - destruct a, b; cbn [py_add]; try discriminate;
      intros H; right; eapply float_binop_raises; eauto.
  - destruct a, b; cbn [py_sub]; try discriminate;
      intros H; right; eapply float_binop_raises; eauto.
  - destruct a, b; cbn [py_mul]; try discriminate;
      intros H; right; eapply float_binop_raises; eauto.
  - apply py_truediv_raises.
  - destruct a, b; cbn [py_pow]; try discriminate.
    destruct (0 <=? n0); discriminate.
  - destruct b; cbn [py_sub]; try discriminate;
      intros H; right; eapply float_binop_raises; eauto.
Qed.

Lemma computed_not_IndexError (f : Lambda) (a b : number) (rest : OutputStack) :
  (result_ <- call f a b ;; Return (result_ :: rest)) <> Raise IndexError.
Proof.
  destruct (call f a b) eqn:E; cbn [bind]; try discriminate.
  intros H. inversion H; subst. apply call_raises in E as [E|E]; discriminate.
Qed.

Lemma computed_length (f : Lambda) (a b : number) (rest stack' : OutputStack) :
  (result_ <- call f a b ;; Return (result_ :: rest)) = Return stack' ->
  length stack' = S (length rest).
Proof.
  destruct (call f a b); cbn [bind]; try discriminate.
  intros H. inversion H. reflexivity.
Qed.

(** Appending an operator of the table raises [IndexError] exactly when the
    stack holds fewer operands than the operator takes, one for the unary
    minus and two for the others; when it returns, the operands have been
    replaced by one value. *)
Theorem append_needs_its_operands (op : Operator) (stack : OutputStack) :
  In op operators ->
  (OutputStack_append stack (POp op) = Raise IndexError
   <-> (length stack < arity op)%nat)
  /\ forall stack',
       OutputStack_append stack (POp op) = Return stack' ->
       (length stack' + arity op = length stack + 1)%nat.
Proof.
  intros Hin.
  each_operator Hin; unfold arity, OutputStack_append;
    match goal with
    | |- context [Operator_eqb ?a ?b] =>
        let v := eval vm_compute in (Operator_eqb a b) in
        change (Operator_eqb a b) with v
    end; cbv iota; cbn [calc OP_PLUS OP_MINUS OP_TIMES OP_DIVIDE
                         OP_EXPONENTIATION OP_UNARY_MINUS];
    destruct stack as [|r [|l rest]]; cbn [length];
    (split;
     [split; intros H;
      try reflexivity; try lia;
      try (exfalso; eapply computed_not_IndexError; exact H)
     |intros stack' H; try discriminate;
      apply computed_length in H; rewrite H; cbn [length]; lia]).
Qed.

Lemma append_needs_its_operands_witness :
  OutputStack_append [VInt 1] (POp OP_PLUS) = Raise IndexError
  /\ (length [VInt 3] + arity OP_TIMES = length [VInt 1; VInt 3] + 1)%nat.
Proof.
  split.
  - apply (append_needs_its_operands OP_PLUS [VInt 1]).
    + unfold operators; simpl; tauto.
    + cbv; lia.
  - apply (append_needs_its_operands OP_TIMES [VInt 1; VInt 3]).
    + unfold operators; simpl; tauto.
    + reflexivity.
Defined.

(** * The outcomes of [calculate] *)

Lemma within_bind {A B : Type} (VA : A -> Prop) (VB : B -> Prop)
    (E : exn -> Prop) (U : Prop) (m : outcome A) (f : A -> outcome B) :
  within VA E U m -> (forall a, VA a -> within VB E U (f a)) ->
  within VB E U (bind m f).
Proof. destruct m; cbn [within bind]; auto. Qed.

Lemma yields_to_not_lparen (top current : Operator) :
  yields_to top current = true -> top <> OP_LPAREN.
Proof. intros H ->. discriminate H. Qed.

Section Outcomes.

Variable ok_char : ascii -> bool.
Variable ok_op : Operator -> Prop.
Variable V : number -> Prop.
Variable E : exn -> Prop.
Variable U : Prop.

Hypothesis ok_op_operators : forall op, ok_op op -> In op operators.
Hypothesis ok_symbol :
  forall op, In op operators -> ok_char (symbol op) = true -> ok_op op.
Hypothesis V_int : forall n, V (VInt n).
Hypothesis ok_call :
  forall op f a b,
    ok_op op -> calc op = Some f -> V a -> V b -> within V E U (call f a b).
Hypothesis E_ValueError : forall arg, E (ValueError arg).
Hypothesis E_IndexError : E IndexError.

Lemma append_int_within (out : OutputStack) (n : Z) :
  Forall V out -> within (Forall V) E U (OutputStack_append out (PInt n)).
Proof. intros H. cbn. constructor; auto. Qed.

Lemma append_within (op : Operator) (out : OutputStack) :
  ok_op op -> Forall V out ->
  within (Forall V) E U (OutputStack_append out (POp op)).
Proof.
  intros Hop Hout. pose proof (ok_op_operators op Hop) as Hin.
  assert (Hc : exists f, calc op = Some f)
    by (each_operator Hin; eexists; reflexivity).
  destruct Hc as [f Hf]. unfold OutputStack_append. rewrite Hf.
  destruct (Operator_eqb op OP_UNARY_MINUS).
  - destruct out as [|r rest]; [exact E_IndexError|].
    inversion Hout; subst.
    eapply within_bind; [apply (ok_call op); auto|].
    intros a Ha. cbn. constructor; auto.
  - destruct out as [|r [|l rest]]; try exact E_IndexError.
    inversion Hout as [|? ? Hr Hrest]; subst.
    inversion Hrest as [|? ? Hl Hrest']; subst.
    eapply within_bind; [apply (ok_call op); auto|].
    intros a Ha. cbn. constructor; auto.
Qed.

Lemma pop_preceding_within (current : Operator) (ops : list Operator) :
  forall out,
    stacks_hold V ok_op (out, ops) ->
    within (stacks_hold V ok_op) E U (pop_preceding current ops out).
Proof.
  induction ops as [|top rest IH]; intros out [Hout Hops]; cbn [pop_preceding].
  - split; assumption.
  - destruct (yields_to top current) eqn:Hy; [|split; assumption].
    cbn [fst snd] in *. inversion Hops as [|? ? Htop Hrest]; subst.
    destruct Htop as [Htop|Htop];
      [|exfalso; exact (yields_to_not_lparen _ _ Hy Htop)].
    eapply within_bind; [apply append_within; eassumption|].
    intros out' Hout'. apply IH. split; assumption.
Qed.

Lemma pop_to_lparen_within (ops : list Operator) :
  forall out,
    stacks_hold V ok_op (out, ops) ->
    within (stacks_hold V ok_op) E U (pop_to_lparen ops out).
Proof.
  induction ops as [|top rest IH]; intros out [Hout Hops]; cbn [pop_to_lparen].
  - exact E_IndexError.
  - destruct (negb (Operator_eqb top OP_LPAREN)) eqn:Hn; [|split; assumption].
    cbn [fst snd] in *. inversion Hops as [|? ? Htop Hrest]; subst.
    destruct Htop as [Htop|Htop]; [|subst top; discriminate Hn].
    eapply within_bind; [apply append_within; eassumption|].
    intros out' Hout'. apply IH. split; assumption.
Qed.

Lemma drain_within (ops : list Operator) :
  forall out,
    stacks_hold V ok_op (out, ops) -> within (Forall V) E U (drain ops out).
Proof.
  induction ops as [|top rest IH]; intros out [Hout Hops]; cbn [drain].
  - exact Hout.
  - destruct (Operator_eqb top OP_LPAREN) eqn:Hn; [apply E_ValueError|].
    cbn [fst snd] in *. inversion Hops as [|? ? Htop Hrest]; subst.
    destruct Htop as [Htop|Htop]; [|subst top; discriminate Hn].
    eapply within_bind; [apply append_within; eassumption|].
    intros out' Hout'. apply IH. split; assumption.
Qed.

Lemma finish_within (stacks : Stacks) :
  stacks_hold V ok_op stacks -> within V E U (finish stacks).
Proof.
  intros H. unfold finish. eapply within_bind.
  - apply drain_within. destruct stacks; exact H.
  - intros out Hout. destruct out as [|top rest]; [exact E_IndexError|].
    inversion Hout; subst. assumption.
Qed.

Lemma handle_number_within (ns : string) (stacks : Stacks) :
  stacks_hold V ok_op stacks ->
  within (stacks_hold V ok_op) E U (handle (mkToken NUMBER ns) stacks).
Proof.
  intros [Hout Hops]. destruct stacks as [out ops]. unfold handle.
  cbn [token_type value]. change (Operator_eqb NUMBER NUMBER) with true. cbv iota.
  unfold int. destruct ns as [|c ns]; [apply E_ValueError|].
  destruct (string_forallb isdecimal (String c ns)); [|apply E_ValueError].
  cbn. split; [constructor; auto|assumption].
Qed.

Lemma handle_symbol_within (op : Operator) (stacks : Stacks) :
  In op symbol_operators -> ok_char (symbol op) = true ->
  stacks_hold V ok_op stacks ->
  within (stacks_hold V ok_op) E U (handle (operator_token op) stacks).
Proof.
  intros Hin Hchar Hst. unfold symbol_operators in Hin.
  apply in_app_or in Hin as [Hin|[<-|[<-|[]]]].
  - rewrite handle_operator by assumption.
    eapply within_bind.
    + apply pop_preceding_within. destruct stacks; exact Hst.
    + intros [out ops] [Hout Hops]. cbn [within fst snd]. split; [assumption|].
      constructor; [left; apply ok_symbol; assumption|assumption].
  - destruct stacks as [out ops], Hst as [Hout Hops]. cbn. split; [assumption|].
    constructor; [right; reflexivity|assumption].
  - destruct stacks as [out ops]. destruct ops as [|top ops]; [apply E_ValueError|].
    unfold operator_token. rewrite handle_rparen. eapply within_bind.
    + apply pop_to_lparen_within. exact Hst.
    + intros [out' ops'] [Hout Hops]. cbn [fst snd] in *.
      destruct ops' as [|top' rest]; [exact E_IndexError|].
      destruct (negb (Operator_eqb top' OP_LPAREN)); [apply E_ValueError|].
      inversion Hops; subst. split; assumption.
Qed.

Lemma exec_within (unread ns : string) (prev : option Token) :
  string_forallb ok_char unread = true ->
  forall stacks,
    stacks_hold V ok_op stacks -> within V E U (exec (lex unread ns prev) stacks).
Proof.
  revert unread ns prev.
  apply (lex_cases (fun unread ns prev s =>
    string_forallb ok_char unread = true ->
    forall stacks, stacks_hold V ok_op stacks -> within V E U (exec s stacks))).
  - intros ns prev _ stacks Hst. destruct (nonempty ns).
    + rewrite exec_Emit. eapply within_bind; [apply handle_number_within, Hst|].
      intros st' Hst'. apply finish_within, Hst'.
    + apply finish_within, Hst.
  - intros c rest ns prev _ IH Hok. simpl in Hok.
    apply andb_true_iff in Hok as [_ Hok]. auto.
  - intros c rest ns prev _ _ IH Hok stacks Hst. rewrite exec_Emit.
    eapply within_bind; [apply handle_number_within, Hst|]. auto.
  - intros rest prev IH Hok. simpl in Hok.
    apply andb_true_iff in Hok as [_ Hok]. auto.
  - intros op rest prev Hin _ _ IH Hok stacks Hst. simpl in Hok.
    apply andb_true_iff in Hok as [Hc Hok]. rewrite exec_Emit.
    eapply within_bind; [apply handle_symbol_within; eassumption|]. auto.
  - intros c rest prev _ _ stacks _. apply E_ValueError.
Qed.

Lemma calculate_within (s : string) :
  string_forallb ok_char s = true -> within V E U (calculate s).
Proof.
  intros Hok. rewrite calculate_exec. apply exec_within; [exact Hok|].
  split; constructor.
Qed.

End Outcomes.

Lemma string_forallb_true (s : string) : string_forallb (fun _ => true) s = true.
Proof. induction s; simpl; auto. Qed.

(** Whatever the text, an exception that leaves [calculate] is a
    [ValueError], an [IndexError], a [ZeroDivisionError] or an
    [OverflowError]: the [StopIteration] of the iterator ends the loop, the
    attributes of the iterator are set before they are read, and no
    parenthesis is ever called as an operator. *)
Theorem calculate_raises_only (s : string) (e : exn) :
  calculate s = Raise e -> raisable e = true.
Proof.
  intros H.
  pose proof (calculate_within (fun _ => true) (fun op => In op operators)
                (fun _ => True) (fun e => raisable e = true) True) as G.
  specialize (G (fun _ H => H) (fun _ H _ => H) (fun _ => I)).
  assert (Hcall : forall (op : Operator) f a b,
             In op operators -> calc op = Some f -> True -> True ->
             within (fun _ : number => True) (fun e => raisable e = true) True
               (call f a b)).
  { intros op f a b _ _ _ _. destruct (call f a b) eqn:Ec; cbn; auto.
    apply call_raises in Ec as [->| ->]; reflexivity. }
  specialize (G Hcall (fun _ => eq_refl) eq_refl s (string_forallb_true s)).
  rewrite H in G. exact G.
Qed.

Lemma calculate_raises_only_witness :
  calculate "1/(2-2)" = Raise ZeroDivisionError
  /\ raisable ZeroDivisionError = true.
Proof.
  split; [vm_compute; reflexivity|].
  apply (calculate_raises_only "1/(2-2)"). vm_compute. reflexivity.
Defined.

Lemma additive_call (op : Operator) (f : Lambda) (a b : number) :
  In op [OP_PLUS; OP_MINUS; OP_TIMES; OP_UNARY_MINUS] -> calc op = Some f ->
  is_int a = true -> is_int b = true ->
  within (fun v => is_int v = true)
         (fun e => e = IndexError \/ exists arg, e = ValueError arg) False
         (call f a b).
Proof.
  intros Hin Hf Ha Hb. destruct a; [|discriminate]. destruct b; [|discriminate].
  destruct Hin as [<-|[<-|[<-|[<-|[]]]]]; inversion Hf; subst; reflexivity.
Qed.

(** A text of digits, blanks, parentheses and the signs ['+'], ['-'] and
    ['*'] never brings a float about: [calculate] returns an [int], or raises
    a [ValueError] or an [IndexError]. *)
Theorem additive_text_gives_an_int (s : string) :
  string_forallb additive s = true ->
  (exists n, calculate s = Return (VInt n))
  \/ calculate s = Raise IndexError
  \/ (exists arg, calculate s = Raise (ValueError arg)).
Proof.
  intros Hs.
  pose proof (calculate_within additive
                (fun op => In op [OP_PLUS; OP_MINUS; OP_TIMES; OP_UNARY_MINUS])
                (fun v => is_int v = true)
                (fun e => e = IndexError \/ exists arg, e = ValueError arg)
                False) as G.
  assert (H1 : forall op, In op [OP_PLUS; OP_MINUS; OP_TIMES; OP_UNARY_MINUS] ->
                          In op operators).
  { intros op H. unfold operators. simpl in *. tauto. }
  assert (H2 : forall op, In op operators -> additive (symbol op) = true ->
                          In op [OP_PLUS; OP_MINUS; OP_TIMES; OP_UNARY_MINUS]).
  { intros op H Hc. each_operator H; simpl; auto; discriminate Hc. }
  specialize (G H1 H2 (fun _ => eq_refl) additive_call
                (fun arg => or_intror (ex_intro _ arg eq_refl))
                (or_introl eq_refl) s Hs).
  destruct (calculate s) as [v|e|]; cbn [within] in G.
  - destruct v; [|discriminate]. left. eexists. reflexivity.
  - destruct G as [->|[arg ->]]; [right; left; reflexivity|].
    right; right. eexists. reflexivity.
  - contradiction.
Qed.

Lemma additive_text_gives_an_int_witness :
  (exists n, calculate "2*(3-4)" = Return (VInt n))
  \/ calculate "2*(3-4)" = Raise IndexError
  \/ (exists arg, calculate "2*(3-4)" = Raise (ValueError arg)).
Proof. exact (additive_text_gives_an_int "2*(3-4)" eq_refl). Defined.

(** * Texts that give a value *)

Lemma exec_Emit_Return (tok : Token) (k : stream) (stacks : Stacks) (v : number) :
  exec (Emit tok k) stacks = Return v ->
  exists stacks', handle tok stacks = Return stacks' /\ exec k stacks' = Return v.
Proof.
  rewrite exec_Emit. destruct (handle tok stacks) as [st'| |]; cbn [bind];
    try discriminate.
  intros H. exists st'. split; [reflexivity|exact H].
Qed.

Lemma bind_Return_inv {A B : Type} (m : outcome A) (f : A -> outcome B) (b : B) :
  bind m f = Return b -> exists a, m = Return a /\ f a = Return b.
Proof.
  destruct m as [a| |]; cbn [bind]; try discriminate.
  intros H. exists a. split; [reflexivity|exact H].
Qed.

Lemma handle_number_Return (ns : string) (out : OutputStack)
    (ops : list Operator) (stacks' : Stacks) :
  handle (mkToken NUMBER ns) (out, ops) = Return stacks' ->
  string_forallb isdecimal ns = true /\ snd stacks' = ops.
Proof.
  unfold handle. cbn [token_type value].
  change (Operator_eqb NUMBER NUMBER) with true. cbv iota. intros H.
  apply bind_Return_inv in H as [n [Hn H]].
  cbn in H. inversion H; subst. split; [|reflexivity].
  unfold int in Hn. destruct ns as [|c ns]; [reflexivity|].
  destruct (string_forallb isdecimal (String c ns)); [reflexivity|discriminate].
Qed.

(** ** Parentheses *)

Lemma pop_preceding_open_parens (current : Operator) (ops : list Operator) :
  forall out stacks',
    pop_preceding current ops out = Return stacks' ->
    open_parens (snd stacks') = open_parens ops.
Proof.
  induction ops as [|top rest IH]; intros out st' H; cbn [pop_preceding] in H.
  - inversion H; reflexivity.
  - destruct (yields_to top current) eqn:Hy; [|inversion H; reflexivity].
    apply bind_Return_inv in H as [out' [_ H]]. apply IH in H. rewrite H.
    unfold yields_to in Hy. apply andb_true_iff in Hy as [Hy _].
    unfold open_parens. cbn [filter].
    destruct (Operator_eqb top OP_LPAREN); [discriminate|reflexivity].
Qed.

Lemma pop_to_lparen_open_parens (ops : list Operator) :
  forall out stacks',
    pop_to_lparen ops out = Return stacks' ->
    exists rest,
      snd stacks' = OP_LPAREN :: rest /\ open_parens ops = S (open_parens rest).
Proof.
  induction ops as [|top rest IH]; intros out st' H; cbn [pop_to_lparen] in H;
    [discriminate|].
  destruct (Operator_eqb top OP_LPAREN) eqn:Ht; cbn [negb] in H.
  - inversion H; subst. cbn [snd]. apply Operator_eqb_eq in Ht. subst top.
    exists rest. split; reflexivity.
  - apply bind_Return_inv in H as [out' [_ H]]. apply IH in H as [rest' [H1 H2]].
    exists rest'. split; [exact H1|].
    unfold open_parens in *. cbn [filter]. rewrite Ht. exact H2.
Qed.

Lemma drain_open_parens (ops : list Operator) :
  forall out out', drain ops out = Return out' -> open_parens ops = 0%nat.
Proof.
  induction ops as [|top rest IH]; intros out out' H; cbn [drain] in H;
    [reflexivity|].
  destruct (Operator_eqb top OP_LPAREN) eqn:Ht; [discriminate|].
  apply bind_Return_inv in H as [out1 [_ H]]. apply IH in H.
  unfold open_parens in *. cbn [filter]. rewrite Ht. exact H.
Qed.

Lemma finish_open_parens (out : OutputStack) (ops : list Operator) (v : number) :
  finish (out, ops) = Return v -> open_parens ops = 0%nat.
Proof.
  unfold finish. intros H. apply bind_Return_inv in H as [out' [H _]].
  eapply drain_open_parens; exact H.
Qed.

Lemma isnumeric_not_paren (c : ascii) :
  isnumeric c = true -> Ascii.eqb c "(" = false /\ Ascii.eqb c ")" = false.
Proof.
  intros H. split.
  - destruct (Ascii.eqb c "(") eqn:E; [|reflexivity].
    apply Ascii.eqb_eq in E. subst c. discriminate.
  - destruct (Ascii.eqb c ")") eqn:E; [|reflexivity].
    apply Ascii.eqb_eq in E. subst c. discriminate.
Qed.

Lemma handle_symbol_open_parens (op : Operator) (rest : string)
    (out : OutputStack) (ops : list Operator) (stacks' : Stacks) :
  In op symbol_operators ->
  handle (operator_token op) (out, ops) = Return stacks' ->
  paren_depth (String (symbol op) rest) (open_parens ops)
  = paren_depth rest (open_parens (snd stacks')).
Proof.
  intros Hin H. unfold symbol_operators in Hin.
  apply in_app_or in Hin as [Hin|[<-|[<-|[]]]].
  - rewrite handle_operator in H by assumption.
    apply bind_Return_inv in H as [st [H1 H2]]. inversion H2; subst.
    apply pop_preceding_open_parens in H1. cbn [fst snd] in *.
    replace (open_parens (op :: snd st)) with (open_parens ops)
      by (rewrite <- H1; each_operator Hin; reflexivity).
    each_operator Hin; reflexivity.
  - cbn in H. inversion H; subst. reflexivity.
  - destruct ops as [|top ops]; [discriminate|].
    unfold operator_token in H. rewrite handle_rparen in H.
    apply bind_Return_inv in H as [st [H1 H2]].
    apply pop_to_lparen_open_parens in H1 as [rest' [H3 H4]].
    rewrite H3 in H2. cbn in H2. inversion H2; subst.
    rewrite H4. reflexivity.
Qed.

Lemma exec_open_parens (unread ns : string) (prev : option Token) :
  forall out ops v,
    exec (lex unread ns prev) (out, ops) = Return v ->
    paren_depth unread (open_parens ops) = Some 0%nat.
Proof.
  revert unread ns prev.
  apply (lex_cases (fun unread ns prev s =>
    forall out ops v,
      exec s (out, ops) = Return v ->
      paren_depth unread (open_parens ops) = Some 0%nat)).
  - intros ns prev out ops v H. cbn [paren_depth]. f_equal.
    destruct (nonempty ns).
    + apply exec_Emit_Return in H as [[out' ops'] [H1 H2]].
      apply handle_number_Return in H1 as [_ H1]. cbn [snd] in H1. subst ops'.
      eapply finish_open_parens. exact H2.
    + eapply finish_open_parens. exact H.
  - intros c rest ns prev Hc IH out ops v H. cbn [paren_depth].
    destruct (isnumeric_not_paren c Hc) as [-> ->]. eapply IH; exact H.
  - intros c rest ns prev _ _ IH out ops v H.
    apply exec_Emit_Return in H as [[out' ops'] [H1 H2]].
    apply handle_number_Return in H1 as [_ H1]. cbn [snd] in H1. subst ops'.
    eapply IH; exact H2.
  - intros rest prev IH out ops v H. cbn. eapply IH; exact H.
  - intros op rest prev Hin _ _ IH out ops v H.
    apply exec_Emit_Return in H as [[out' ops'] [H1 H2]].
    rewrite (handle_symbol_open_parens op rest out ops _ Hin H1). cbn [snd].
    eapply IH; exact H2.
  - intros c rest prev _ out ops v H. discriminate H.
Qed.

(** [calculate] returns a value only for a text whose parentheses are
    balanced: every right parenthesis closes a left one, and none is left
    open. *)
Theorem value_needs_balanced_parentheses (s : string) (v : number) :
  calculate s = Return v -> balanced s = true.
Proof.
  rewrite calculate_exec. intros H. apply exec_open_parens in H.
  unfold balanced. change (open_parens []) with 0%nat in H. rewrite H. reflexivity.
Qed.

Lemma value_needs_balanced_parentheses_witness :
  calculate "((1+2)*3)-(4)" = Return (VInt 5) /\ balanced "((1+2)*3)-(4)" = true.
Proof.
  split; [vm_compute; reflexivity|].
  apply (value_needs_balanced_parentheses "((1+2)*3)-(4)" (VInt 5)).
  vm_compute. reflexivity.
Defined.

(** ** The alphabet *)

Lemma symbol_plain (op : Operator) : In op symbol_operators -> plain (symbol op) = true.
Proof. intros H. each_symbol_operator H; reflexivity. Qed.

Lemma exec_plain (unread ns : string) (prev : option Token) :
  forall stacks v,
    exec (lex unread ns prev) stacks = Return v ->
    string_forallb isdecimal ns = true /\ string_forallb plain unread = true.
Proof.
  revert unread ns prev.
  apply (lex_cases (fun unread ns prev s =>
    forall stacks v,
      exec s stacks = Return v ->
      string_forallb isdecimal ns = true /\ string_forallb plain unread = true)).
  - intros ns prev [out ops] v H. split; [|reflexivity].
    destruct (nonempty ns) eqn:E.
    + apply exec_Emit_Return in H as [st' [H1 _]].
      apply handle_number_Return in H1 as [H1 _]. exact H1.
    + apply nonempty_false in E. subst ns. reflexivity.
  - intros c rest ns prev Hc IH stacks v H.
    destruct (IH stacks v H) as [H1 H2].
    rewrite string_forallb_app in H1. apply andb_true_iff in H1 as [H1 H3].
    simpl in H3. rewrite andb_true_r in H3. split; [exact H1|].
    cbn [string_forallb]. rewrite H2. unfold plain. rewrite H3. reflexivity.
  - intros c rest ns prev _ _ IH [out ops] v H.
    apply exec_Emit_Return in H as [st' [H1 H2]].
    apply handle_number_Return in H1 as [H1 _]. split; [exact H1|].
    destruct (IH st' v H2) as [_ H3]. exact H3.
  - intros rest prev IH stacks v H. destruct (IH stacks v H) as [H1 H2].
    split; [exact H1|]. cbn [string_forallb]. rewrite H2. reflexivity.
  - intros op rest prev Hin _ _ IH stacks v H.
    apply exec_Emit_Return in H as [st' [_ H2]].
    destruct (IH st' v H2) as [H1 H3]. split; [reflexivity|].
    cbn [string_forallb]. rewrite H3, (symbol_plain op Hin). reflexivity.
  - intros c rest prev _ stacks v H. discriminate H.
Qed.

(** [calculate] returns a value only for a text of decimal digits, blanks,
    operator symbols and parentheses: any other character, a numeric one
    that [int] does not read included, ends in an exception. *)
Theorem value_needs_plain_text (s : string) (v : number) :
  calculate s = Return v -> string_forallb plain s = true.
Proof.
  rewrite calculate_exec. intros H. apply exec_plain in H. apply H.
Qed.

Lemma value_needs_plain_text_witness :
  calculate "2^(3 - 1)/4*5" = Return (VFloat (S754_finite false 5629499534213120 (-50)))
  /\ string_forallb plain "2^(3 - 1)/4*5" = true.
Proof.
  split; [vm_compute; reflexivity|].
  apply (value_needs_plain_text "2^(3 - 1)/4*5" (VFloat (S754_finite false 5629499534213120 (-50)))).
  vm_compute. reflexivity.
Defined.

(** * Further properties of expressions *)

(** ** Division by zero *)

Lemma py_truediv_zero (a : number) : py_truediv a (VInt 0) = Raise ZeroDivisionError.
Proof.
  destruct a as [n|x]; cbn [py_truediv to_float bind].
  - unfold int_true_divide. destruct n; reflexivity.
  - reflexivity.
Qed.

(** Dividing by a literal zero raises [ZeroDivisionError] whatever the value
    of the dividend, an [int] or a [float], once the dividend has been
    evaluated: for a well-formed dividend [e] that binds at least as tightly
    as ['/'], the text [e/0] raises what [e] raises, and
    [ZeroDivisionError] when [e] has a value. *)
Theorem division_by_zero_literal (e : expression) (z : string) (n : nat) :
  well_formed 2 e = true -> decimal z = true -> literal_value z = 0 ->
  calculate (text e ++ "/" ++ z ++ blanks n)
  = (_ <- eval e ;; Raise ZeroDivisionError).
Proof.
  intros He Hz Hv.
  pose (t := Binary e 0 OP_DIVIDE (Literal 0 z)).
  assert (Ht : well_formed 0 t = true).
  { cbn. unfold decimal in Hz. cbn in He. rewrite He, Hz. reflexivity. }
  pose proof (calculate_text t n Ht) as H.
  cbn [text t blanks String.append symbol OP_DIVIDE] in H.
  rewrite string_app_assoc in H. cbn [String.append] in H.
  cbn [String.append]. rewrite H. unfold t. cbn [eval].
  rewrite (int_decimal z Hz), Hv. cbn [bind].
  apply bind_ext. intros a.
  cbn [apply_operator calc OP_DIVIDE call]. apply py_truediv_zero.
Qed.

Lemma division_by_zero_literal_witness :
  calculate "(7/2)*3/00 " = Raise ZeroDivisionError.
Proof.
  exact (division_by_zero_literal
           (Binary (Group 0 (Binary (Literal 0 "7") 0 OP_DIVIDE (Literal 0 "2")) 0)
                   0 OP_TIMES (Literal 0 "3"))
           "00" 1 eq_refl eq_refl eq_refl).
Defined.

(** ** A parenthesis left open *)

Lemma closes_Stop_above (level : nat) (base : list Operator) : closes level Stop base.
Proof.
  intros pend op out _ Hop. unfold exec, finish. cbn [run bind snd fst drain].
  rewrite (pending_not_lparen _ _ Hop). rewrite bind_assoc. reflexivity.
Qed.

Lemma lex_lparen (rest : string) (prev : option Token) :
  lex (String "(" rest) "" prev
  = Emit (operator_token OP_LPAREN) (lex rest "" (Some (operator_token OP_LPAREN))).
Proof. reflexivity. Qed.

(** A left parenthesis that is never closed is reported at the end of the
    text, after the expression behind it has been evaluated: for a
    well-formed [e] the text [(e] raises what [e] raises, and the
    [ValueError] "mismatched parentheses" when [e] has a value. *)
Theorem open_parenthesis_raises_at_the_end (e : expression) (m n : nat) :
  well_formed 0 e = true ->
  calculate (blanks m ++ "(" ++ text e ++ blanks n)
  = (_ <- eval e ;; Raise mismatched).
Proof.
  intros Hwf. rewrite calculate_exec, lex_blanks. cbn [String.append].
  rewrite lex_lparen.
  rewrite (lex_text e 0 (blanks n) (Some (operator_token OP_LPAREN)) Hwf eq_refl
             (starts_numeric_blanks n)).
  rewrite lex_blanks_only, exec_Emit.
  change (handle (operator_token OP_LPAREN) ([], []))
    with (@Return Stacks ([], [OP_LPAREN])).
  cbn [bind].
  etransitivity;
    [apply (exec_expression e 0 Stop [] [OP_LPAREN] Hwf (closes_Stop_above 0 _))|].
  - intros op _. reflexivity.
  - apply bind_ext. intros v. reflexivity.
Qed.

Lemma open_parenthesis_raises_at_the_end_witness :
  calculate " (1+2*3 " = Raise mismatched.
Proof.
  exact (open_parenthesis_raises_at_the_end
           (Binary (Literal 0 "1") 0 OP_PLUS
                   (Binary (Literal 0 "2") 0 OP_TIMES (Literal 0 "3")))
           1 1 eq_refl).
Defined.

(** ** Two minus signs in front *)

Lemma lex_unary_minus (rest : string) (prev : option Token) :
  unary_position prev = true ->
  lex (String "-" rest) "" prev
  = Emit (operator_token OP_UNARY_MINUS)
         (lex rest "" (Some (operator_token OP_UNARY_MINUS))).
Proof.
  intros H. cbn [lex]. change (isnumeric "-") with false. cbn [nonempty].
  unfold lex_symbol. change (Ascii.eqb "-" " ") with false. cbv iota.
  change (Ascii.eqb "-" (symbol OP_UNARY_MINUS)) with true. rewrite H. reflexivity.
Qed.

(** A text that begins with two minus signs raises [IndexError], whatever
    follows them: the second unary minus makes the loop of line 169 apply the
    first one to an empty operand stack, before the rest of the text is
    read. *)
Theorem double_minus_raises_IndexError (a b : nat) (rest : string) :
  calculate (blanks a ++ "-" ++ blanks b ++ "-" ++ rest) = Raise IndexError.
Proof.
  rewrite calculate_exec, lex_blanks. cbn [String.append].
  rewrite lex_unary_minus by reflexivity.
  rewrite lex_blanks, lex_unary_minus by reflexivity.
  rewrite !exec_Emit. reflexivity.
Qed.

(** ** Parentheses around every operand *)

Lemma shaped_parenthesize (e : expression) :
  shaped e = true -> well_formed 0 (parenthesize e) = true.
Proof.
  induction e as [gap digits|gap a IH|l IHl gap op r IHr|g1 e IH g2];
    intros H; cbn [shaped parenthesize well_formed Nat.leb] in *.
  - exact H.
  - rewrite (IH H). reflexivity.
  - apply andb_true_iff in H as [H Hr]. apply andb_true_iff in H as [Hop Hl].
    rewrite Hop, (IHl Hl), (IHr Hr). reflexivity.
  - apply (IH H).
Qed.

Lemma eval_parenthesize (e : expression) : eval (parenthesize e) = eval e.
Proof.
  induction e as [gap digits|gap a IH|l IHl gap op r IHr|g1 e IH g2];
    cbn [parenthesize eval]; rewrite ?IH, ?IHl, ?IHr; reflexivity.
Qed.

(** Parentheses override the table: with every operand of every operator in
    parentheses, [calculate] evaluates an expression as it is built, whatever
    the precedences and the associativity of its operators. *)
Theorem parentheses_override_precedence (e : expression) :
  shaped e = true -> calculate (text (parenthesize e)) = eval e.
Proof.
  intros H. rewrite <- (string_app_nil_r (text (parenthesize e))).
  change "" with (blanks 0).
  rewrite calculate_text by exact (shaped_parenthesize e H).
  apply eval_parenthesize.
Qed.

Lemma parentheses_override_precedence_witness :
  calculate "(2)+((3)-(4))" = Return (VInt 1)
  /\ calculate "-((2)^(2))" = Return (VInt (-4)).
Proof.
  split.
  - exact (parentheses_override_precedence
             (Binary (Literal 0 "2") 0 OP_PLUS
                     (Binary (Literal 0 "3") 0 OP_MINUS (Literal 0 "4")))
             eq_refl).
  - exact (parentheses_override_precedence
             (Negate 0 (Binary (Literal 0 "2") 0 OP_EXPONENTIATION (Literal 0 "2")))
             eq_refl).
Defined.

(** * The stacks at the end *)

Section Finish.

Context {A : Type}.
Variable fin : Stacks -> outcome A.

Lemma exec_to_Emit (tok : Token) (k : stream) (stacks : Stacks) :
  exec_to fin (Emit tok k) stacks
  = stacks' <- handle tok stacks ;; exec_to fin k stacks'.
Proof. unfold exec_to. cbn [run]. apply bind_assoc. Qed.

Lemma closes_to_push (level level' : nat) (k : stream) (base : list Operator)
    (op : Operator) :
  (level <= level')%nat -> pending level op ->
  closes_to fin level k base -> closes_to fin level' k (op :: base).
Proof.
  intros Hle Hop Hc pend op' out Hpend Hop'.
  replace (pend ++ op :: base)%list with ((pend ++ [op]) ++ base)%list
    by (rewrite <- app_assoc; reflexivity).
  apply Hc.
  - apply Forall_app. split.
    + eapply Forall_impl; [|exact Hpend]. intros a. apply pending_mono, Hle.
    + constructor; [assumption|constructor].
  - eapply pending_mono; eauto.
Qed.

Lemma closes_to_rparen (level : nat) (k : stream) (base : list Operator) :
  closes_to fin level (Emit (operator_token OP_RPAREN) k) (OP_LPAREN :: base).
Proof.
  intros pend op out _ Hop. rewrite exec_to_Emit.
  unfold operator_token. rewrite handle_rparen.
  cbn [pop_to_lparen]. rewrite (pending_not_lparen _ _ Hop). cbn [negb].
  rewrite !bind_assoc. apply bind_ext. intros out'.
  rewrite exec_to_Emit.
  destruct pend; cbn [app]; rewrite handle_rparen, ?bind_assoc; reflexivity.
Qed.

Lemma closes_to_operator (op : Operator) (level : nat) (k : stream)
    (base : list Operator) :
  In op operators ->
  (forall op', pending level op' -> yields_to op' op = true) ->
  closes_to fin level (Emit (operator_token op) k) base.
Proof.
  intros Hin Hy pend op' out _ Hop'. rewrite exec_to_Emit.
  rewrite handle_operator by assumption. cbn [fst snd pop_preceding].
  rewrite (Hy _ Hop'). rewrite !bind_assoc. apply bind_ext. intros out'.
  rewrite exec_to_Emit, handle_operator by assumption.
  rewrite !bind_assoc. reflexivity.
Qed.

(** [exec_expression], for any end of the run. *)
Lemma exec_to_expression (e : expression) :
  forall level k out base,
    well_formed level e = true ->
    closes_to fin level k base ->
    shields level base ->
    exec_to fin (emit_all (tokens_of e) k) (out, base)
    = v <- eval e ;; exec_to fin k (v :: out, base).
Proof.
  induction e as [gap digits|gap a IH|l IHl gap op r IHr|g1 e IH g2];
    intros level k out base Hwf Hc Hs; cbn [tokens_of emit_all eval].
  - rewrite exec_to_Emit. unfold handle. cbn [token_type value].
    change (Operator_eqb NUMBER NUMBER) with true. cbv iota.
    rewrite !bind_assoc. apply bind_ext. intros n. reflexivity.
  - simpl in Hwf. apply andb_true_iff in Hwf as [Hlevel Hwf].
    apply Nat.leb_le in Hlevel.
    assert (Hun : pending level OP_UNARY_MINUS)
      by (split; [unfold operators; simpl; tauto|exact Hlevel]).
    rewrite exec_to_Emit. erewrite handle_shielded; [|exact Hun|exact Hs].
    cbn [bind].
    rewrite (IH (S (precedence OP_UNARY_MINUS)) k out (OP_UNARY_MINUS :: base) Hwf).
    + rewrite bind_assoc. apply bind_ext. intros v.
      pose proof (Hc [] OP_UNARY_MINUS (v :: out) (Forall_nil _) Hun) as E.
      cbn [app] in E. etransitivity; [exact E|]. cbn [OutputStack_append].
      change (Operator_eqb OP_UNARY_MINUS OP_UNARY_MINUS) with true. cbv iota.
      unfold apply_operator. cbn [calc OP_UNARY_MINUS].
      rewrite !bind_assoc. reflexivity.
    + eapply closes_to_push; [|exact Hun|exact Hc]. simpl in *. lia.
    + intros op [Hin Hp]. each_operator Hin; exfalso; revert Hp; cbv; lia.
  - simpl in Hwf. apply andb_true_iff in Hwf as [Hwf Hwr].
    apply andb_true_iff in Hwf as [Hwf Hwl].
    apply andb_true_iff in Hwf as [Hop Hlevel].
    apply Operator_in_arith in Hop. apply Nat.leb_le in Hlevel.
    assert (Hin : In op operators) by (apply in_or_app; left; exact Hop).
    assert (Hpend : pending level op) by (split; assumption).
    pose proof (level_left_ge op) as Hll. pose proof (level_right_ge op) as Hlr.
    rewrite emit_all_app. cbn [emit_all].
    rewrite (IHl (level_left op) _ out base Hwl).
    + rewrite !bind_assoc. apply bind_ext. intros a.
      rewrite exec_to_Emit. erewrite handle_shielded; [|exact Hpend|exact Hs].
      cbn [bind].
      rewrite (IHr (level_right op) k (a :: out) (op :: base) Hwr).
      * rewrite !bind_assoc. apply bind_ext. intros b.
        pose proof (Hc [] op (b :: a :: out) (Forall_nil _) Hpend) as E.
        cbn [app] in E. etransitivity; [exact E|].
        rewrite append_binary by exact Hop. rewrite !bind_assoc. reflexivity.
      * eapply closes_to_push; [|exact Hpend|exact Hc]. lia.
      * apply shields_right, Hop.
    + apply closes_to_operator; [exact Hin|]. intros op'. apply yields_left, Hop.
    + eapply shields_mono; [|exact Hs]. lia.
  - simpl in Hwf. rewrite exec_to_Emit. unfold handle at 1.
    cbn [operator_token token_type].
    change (Operator_eqb OP_LPAREN NUMBER) with false.
    change (Operator_in OP_LPAREN (ARITHMETIC_OPERATORS ++ [OP_UNARY_MINUS]))
      with false.
    change (Operator_eqb OP_LPAREN OP_LPAREN) with true. cbv iota. cbn [bind].
    rewrite emit_all_app. cbn [emit_all].
    rewrite (IH 0%nat _ out (OP_LPAREN :: base) Hwf).
    + apply bind_ext. intros v. rewrite exec_to_Emit. reflexivity.
    + apply closes_to_rparen.
    + intros op _. reflexivity.
Qed.

End Finish.

Lemma closes_to_drained (level : nat) (base : list Operator) :
  closes_to drained level Stop base.
Proof.
  intros pend op out _ Hop. unfold exec_to, drained. cbn [run bind snd fst drain].
  rewrite (pending_not_lparen _ _ Hop). reflexivity.
Qed.

(** The note in [OutputStack] holds for well-formed expressions: when the
    token loop and the draining of the operator stack are through, the
    operand stack holds exactly one value, the value of the expression. *)
Theorem valid_expression_leaves_one_value (e : expression) (n : nat) :
  well_formed 0 e = true ->
  (stacks <- for_each handle (__iter__ (Tokenizer_init (text e ++ blanks n)))
               (OutputStack_init, @nil Operator) ;;
   drain (snd stacks) (fst stacks))
  = (v <- eval e ;; Return [v]).
Proof.
  intros Hwf. rewrite for_each_tokens, tokens_iter.
  cbn [expr Tokenizer_init].
  rewrite (lex_text e 0 (blanks n) None Hwf eq_refl (starts_numeric_blanks n)).
  rewrite lex_blanks_only.
  apply (exec_to_expression drained e 0 Stop [] [] Hwf (closes_to_drained 0 []) I).
Qed.

Lemma valid_expression_leaves_one_value_witness :
  (stacks <- for_each handle (__iter__ (Tokenizer_init "2*(3+4)-5 "))
               (OutputStack_init, @nil Operator) ;;
   drain (snd stacks) (fst stacks))
  = Return [VInt 9].
Proof.
  exact (valid_expression_leaves_one_value
           (Binary (Binary (Literal 0 "2") 0 OP_TIMES
                      (Group 0 (Binary (Literal 0 "3") 0 OP_PLUS (Literal 0 "4")) 0))
                   0 OP_MINUS (Literal 0 "5"))
           1 eq_refl).
Defined.

(** ** A right parenthesis that closes nothing *)

Lemma exec_emit_all_Emit (l : list Token) (tok : Token) (k : stream) :
  forall stacks,
    exec (emit_all l (Emit tok k)) stacks
    = exec_to (fun st => st' <- handle tok st ;; exec k st') (emit_all l Stop) stacks.
Proof.
  induction l as [|tok' l IH]; intros stacks; cbn [emit_all].
  - rewrite exec_Emit. unfold exec_to. cbn [run bind]. reflexivity.
  - rewrite exec_Emit, exec_to_Emit. apply bind_ext. intros st'. apply IH.
Qed.

Lemma closes_to_unmatched (k : stream) (level : nat) (op0 : Operator) :
  closes_to (fun st => st' <- handle (operator_token OP_RPAREN) st ;; exec k st')
            level Stop [op0].
Proof.
  intros pend op out _ Hop. unfold exec_to. cbn [run bind].
  unfold operator_token. rewrite handle_rparen.
  cbn [pop_to_lparen]. rewrite (pending_not_lparen _ _ Hop). cbn [negb].
  rewrite !bind_assoc. apply bind_ext. intros out'.
  destruct pend; cbn [app]; rewrite handle_rparen, ?bind_assoc; reflexivity.
Qed.

Lemma unmatched_after_operator (k : stream) (op : Operator) (out : OutputStack) :
  In op operators ->
  (st' <- handle (operator_token OP_RPAREN) (out, [op]) ;; exec k st')
  = (_ <- OutputStack_append out (POp op) ;; Raise IndexError).
Proof.
  intros Hin. unfold operator_token. rewrite handle_rparen. cbn [pop_to_lparen].
  replace (Operator_eqb op OP_LPAREN) with false
    by (each_operator Hin; reflexivity).
  cbn [negb]. rewrite !bind_assoc. apply bind_ext. intros out'. reflexivity.
Qed.

Lemma exec_unmatched (e : expression) (k : stream) :
  well_formed 0 e = true ->
  exec (emit_all (tokens_of e) (Emit (operator_token OP_RPAREN) k)) ([], [])
  = (_ <- eval e ;; Raise (if atomic e then mismatched else IndexError)).
Proof.
  intros Hwf. destruct e as [gap digits|gap a|l gap op r|g1 e g2];
    cbn [atomic tokens_of eval].
  - cbn [emit_all]. rewrite exec_Emit. unfold handle at 1. cbn [token_type value].
    change (Operator_eqb NUMBER NUMBER) with true. cbv iota.
    rewrite !bind_assoc. apply bind_ext. intros n. reflexivity.
  - simpl in Hwf. rewrite exec_emit_all_Emit. cbn [emit_all].
    rewrite exec_to_Emit.
    change (handle (operator_token OP_UNARY_MINUS) ([], []))
      with (@Return Stacks ([], [OP_UNARY_MINUS])).
    cbn [bind].
    assert (Hs : shields 5 [OP_UNARY_MINUS])
      by (intros op [Hin Hp]; each_operator Hin; exfalso; revert Hp; cbv; lia).
    etransitivity;
      [exact (exec_to_expression _ a _ Stop [] [OP_UNARY_MINUS] Hwf
                (closes_to_unmatched k _ _) Hs)|].
    rewrite bind_assoc. apply bind_ext. intros v.
    unfold exec_to. cbn [run bind].
    rewrite unmatched_after_operator by (unfold operators; simpl; tauto).
    cbn [OutputStack_append].
    change (Operator_eqb OP_UNARY_MINUS OP_UNARY_MINUS) with true. cbv iota.
    unfold apply_operator. cbn [calc OP_UNARY_MINUS].
    rewrite !bind_assoc. reflexivity.
  - simpl in Hwf. apply andb_true_iff in Hwf as [Hwf Hwr].
    apply andb_true_iff in Hwf as [Hop Hwl]. rewrite andb_true_r in Hop.
    apply Operator_in_arith in Hop.
    assert (Hin : In op operators) by (apply in_or_app; left; exact Hop).
    assert (Hpend : pending 0 op) by (split; [assumption|lia]).
    rewrite exec_emit_all_Emit, emit_all_app. cbn [emit_all].
    etransitivity;
      [apply (exec_to_expression _ l (level_left op) _ [] [] Hwl);
       [apply closes_to_operator;
        [exact Hin|intros op'; apply yields_left, Hop]|exact I]|].
    rewrite !bind_assoc. apply bind_ext. intros a.
    rewrite exec_to_Emit.
    erewrite handle_shielded; [|exact Hpend|exact I]. cbn [bind].
    etransitivity;
      [exact (exec_to_expression _ r (level_right op) Stop [a] [op] Hwr
                (closes_to_unmatched k _ _) (shields_right op [] Hop))|].
    rewrite bind_assoc. apply bind_ext. intros b.
    unfold exec_to. cbn [run bind].
    rewrite unmatched_after_operator by exact Hin.
    rewrite append_binary by exact Hop. rewrite !bind_assoc. reflexivity.
  - simpl in Hwf. cbn [emit_all]. rewrite exec_Emit.
    change (handle (operator_token OP_LPAREN) ([], []))
      with (@Return Stacks ([], [OP_LPAREN])).
    cbn [bind]. rewrite emit_all_app. cbn [emit_all].
    etransitivity;
      [apply (exec_expression e 0 _ [] [OP_LPAREN] Hwf (closes_rparen 0 _ []));
       intros op _; reflexivity|].
    apply bind_ext. intros v. rewrite !exec_Emit. reflexivity.
Qed.

Lemma lex_rparen (rest : string) (prev : option Token) :
  lex (String ")" rest) "" prev
  = Emit (operator_token OP_RPAREN) (lex rest "" (Some (operator_token OP_RPAREN))).
Proof. reflexivity. Qed.

(** A right parenthesis behind a complete well-formed expression [e], with
    no left parenthesis open: once [e] is evaluated, the text raises the
    [ValueError] "mismatched parentheses" when [e] is a literal or stands in
    parentheses, and [IndexError] when [e] is the operand of a pending
    operator, whatever follows the parenthesis. *)
Theorem unmatched_rparen_after_expression (e : expression) (n : nat)
    (rest : string) :
  well_formed 0 e = true ->
  calculate (text e ++ blanks n ++ ")" ++ rest)
  = (_ <- eval e ;; Raise (if atomic e then mismatched else IndexError)).
Proof.
  intros Hwf. rewrite calculate_exec.
  rewrite (lex_text e 0 (blanks n ++ ")" ++ rest) None Hwf eq_refl)
    by (destruct n; reflexivity).
  rewrite lex_blanks. cbn [String.append]. rewrite lex_rparen.
  apply exec_unmatched, Hwf.
Qed.

Lemma unmatched_rparen_after_expression_witness :
  calculate "2*3 )+" = Raise IndexError
  /\ calculate "(2*3))+" = Raise mismatched.
Proof.
  split.
  - exact (unmatched_rparen_after_expression
             (Binary (Literal 0 "2") 0 OP_TIMES (Literal 0 "3")) 1 "+" eq_refl).
  - exact (unmatched_rparen_after_expression
             (Group 0 (Binary (Literal 0 "2") 0 OP_TIMES (Literal 0 "3")) 0)
             0 "+" eq_refl).
Defined.

(** ** The outcomes of a well-formed expression *)

Lemma eval_raises (e : expression) :
  forall level x,
    well_formed level e = true -> eval e = Raise x ->
    x = ZeroDivisionError \/ x = OverflowError.
Proof.
  induction e as [gap digits|gap a IH|l IHl gap op r IHr|g1 e IH g2];
    intros level x Hwf H; simpl in Hwf; cbn [eval] in H.
  - rewrite (int_decimal digits Hwf) in H. discriminate H.
  - apply andb_true_iff in Hwf as [_ Hwf].
    destruct (eval a) as [v|y|] eqn:Ea; cbn [bind] in H; [| |discriminate].
    + unfold apply_operator in H. cbn [calc OP_UNARY_MINUS] in H.
      eapply call_raises; exact H.
    + inversion H; subst. eapply IH; eauto.
  - apply andb_true_iff in Hwf as [Hwf Hwr].
    apply andb_true_iff in Hwf as [Hwf Hwl].
    apply andb_true_iff in Hwf as [Hop _]. apply Operator_in_arith in Hop.
    destruct (eval l) as [a|y|] eqn:El; cbn [bind] in H; [| |discriminate].
    + destruct (eval r) as [b|y|] eqn:Er; cbn [bind] in H; [| |discriminate].
      * unfold apply_operator in H.
        destruct (calc op) eqn:Ec; [|each_arith Hop; discriminate Ec].
        eapply call_raises; exact H.
      * inversion H; subst. eapply IHr; eauto.
    + inversion H; subst. eapply IHl; eauto.
  - eapply IH; eauto.
Qed.

(** A well-formed expression never runs into the errors of the parser: the
    only exceptions [calculate] raises for its text are those of the
    arithmetic, [ZeroDivisionError] and [OverflowError]. *)
Theorem well_formed_raises_only_arithmetic (e : expression) (n : nat) (x : exn) :
  well_formed 0 e = true ->
  calculate (text e ++ blanks n) = Raise x ->
  x = ZeroDivisionError \/ x = OverflowError.
Proof.
  intros Hwf H. rewrite (calculate_text e n Hwf) in H.
  eapply eval_raises; eauto.
Qed.

Lemma well_formed_raises_only_arithmetic_witness :
  calculate "2/(3-3) " = Raise ZeroDivisionError
  /\ (ZeroDivisionError = ZeroDivisionError \/ ZeroDivisionError = OverflowError).
Proof.
  split; [vm_compute; reflexivity|].
  apply (well_formed_raises_only_arithmetic
           (Binary (Literal 0 "2") 0 OP_DIVIDE
              (Group 0 (Binary (Literal 0 "3") 0 OP_MINUS (Literal 0 "3")) 0))
           1 ZeroDivisionError eq_refl).
  vm_compute. reflexivity.
Defined.

Lemma integer_value_additive (e : expression) :
  forall level,
    well_formed level e = true -> additive_expression e = true ->
    exists z, integer_value e = Some z.
Proof.
  induction e as [gap digits|gap a IH|l IHl gap op r IHr|g1 e IH g2];
    intros level Hwf Ha; simpl in Hwf, Ha; cbn [integer_value].
  - eexists. reflexivity.
  - apply andb_true_iff in Hwf as [_ Hwf].
    destruct (IH _ Hwf Ha) as [v ->]. eexists. reflexivity.
  - apply andb_true_iff in Hwf as [Hwf Hwr].
    apply andb_true_iff in Hwf as [Hwf Hwl].
    apply andb_true_iff in Hwf as [Hop _]. apply Operator_in_arith in Hop.
    apply andb_true_iff in Ha as [Ha Har].
    apply andb_true_iff in Ha as [Hadd Hal].
    destruct (IHl _ Hwl Hal) as [a ->]. destruct (IHr _ Hwr Har) as [b ->].
    each_arith Hop; try discriminate Hadd; eexists; reflexivity.
  - eapply IH; eauto.
Qed.

(** Every well-formed expression of literals, parentheses, unary minus and
    the binary ['+'], ['-'] and ['*'] has an integer value, and [calculate]
    returns it: on these texts no exception is raised. *)
Theorem additive_expression_has_a_value (e : expression) (n : nat) :
  well_formed 0 e = true -> additive_expression e = true ->
  exists z,
    integer_value e = Some z /\ calculate (text e ++ blanks n) = Return (VInt z).
Proof.
  intros Hwf Ha. destruct (integer_value_additive e 0 Hwf Ha) as [z Hz].
  exists z. split; [exact Hz|].
  rewrite (calculate_text e n Hwf). eapply eval_integer_value; eauto.
Qed.

Lemma additive_expression_has_a_value_witness :
  exists z,
    integer_value (Binary (Literal 0 "1") 0 OP_MINUS
                     (Group 0 (Negate 0 (Literal 0 "2")) 0)) = Some z
    /\ calculate "1-(-2)" = Return (VInt z).
Proof.
  exact (additive_expression_has_a_value
           (Binary (Literal 0 "1") 0 OP_MINUS (Group 0 (Negate 0 (Literal 0 "2")) 0))
           0 eq_refl eq_refl).
Defined.
